(** * env-manager: a shallow embedding of [env_manager.py]

    The program keeps a Python [dict] of environment variables in step with a
    [.env]-style text file.  The embedding follows the source function by
    function:

    - Python [str] values are lists of Unicode code points ([N]);
    - the insertion-ordered [dict] is an association list with the update,
      membership and deletion behaviour of [dict];
    - the methods of [EnvManager] are programs of a small state-and-exception
      monad over a [World] that holds the object's fields, the backing file,
      the terminal (replies typed and text printed) and the SIGINT state.

    What lies outside the source file is fixed as follows.  The backing file
    holds text (encoding and decoding are not modelled); opening it for
    writing and writing to it succeed, so that every statement on a save is
    on a run in which the operating system lets the save through.  Newline
    translation is the POSIX one, the platforms the source names for
    readline.  [str.lower] on text with non-ASCII characters is the
    interpreter's Unicode table and is a parameter of the development.

    A SIGINT reaches the program in one of two ways: typed at a prompt,
    where it is an event of the terminal, or under way while the program
    runs, in which case it is handled at one of the calls that leave the
    method at hand (printing, reading, opening or writing the file,
    installing the handler, renewing the completer).  Between two such calls
    the program only computes and assigns, so that these are the points at
    which runs differ in what they print and in what they leave in the
    file. *)

From Stdlib Require Import List NArith ZArith Bool String Ascii Lia.
From Stdlib Require Import Sorting.Sorted Sorting.Permutation.
Import ListNotations.
Local Open Scope list_scope.

(** ** Text *)

Definition char := N.
Definition str := list char.

(** The code points of a literal of the source. *)
Definition lit (s : string) : str := map N_of_ascii (list_ascii_of_string s).

Definition NL : char := 10%N.       (* '\n' *)
Definition CR : char := 13%N.       (* '\r' *)
Definition EQ : char := 61%N.       (* '=' *)
Definition HASH : char := 35%N.     (* '#' *)

Fixpoint str_eqb (a b : str) : bool :=
  match a, b with
  | [], [] => true
  | x :: a', y :: b' => N.eqb x y && str_eqb a' b'
  | _, _ => false
  end.

(** [str.__lt__]: lexicographic order on code points. *)
Fixpoint str_ltb (a b : str) : bool :=
  match a, b with
  | _, [] => false
  | [], _ :: _ => true
  | x :: a', y :: b' => N.ltb x y || (N.eqb x y && str_ltb a' b')
  end.

(** The characters [str.strip()] removes when called without argument: the
    code points for which [str.isspace] holds. *)
Definition isspace (c : char) : bool :=
  ((9 <=? c) && (c <=? 13) || (28 <=? c) && (c <=? 32)
   || (c =? 133) || (c =? 160) || (c =? 5760)
   || (8192 <=? c) && (c <=? 8202)
   || (c =? 8232) || (c =? 8233) || (c =? 8239) || (c =? 8287)
   || (c =? 12288))%N.

Fixpoint lstrip (s : str) : str :=
  match s with
  | [] => []
  | c :: s' => if isspace c then lstrip s' else s
  end.

Definition rstrip (s : str) : str := rev (lstrip (rev s)).

(** [s.strip()] *)
Definition strip (s : str) : str := rstrip (lstrip s).

(** [s.startswith(c)] for a one-character prefix. *)
Definition startswith (c : char) (s : str) : bool :=
  match s with
  | x :: _ => N.eqb x c
  | [] => false
  end.

(** [s.split(sep, 1)]: the whole string when [sep] does not occur, else what
    precedes and what follows its first occurrence. *)
Fixpoint split1 (sep : char) (s : str) : list str :=
  match s with
  | [] => [[]]
  | c :: s' =>
      if N.eqb c sep then [[]; s']
      else match split1 sep s' with
           | a :: rest => (c :: a) :: rest
           | [] => [[c]]
           end
  end.

(** ASCII part of [str.lower]. *)
Definition ascii_lower (c : char) : char :=
  if ((65 <=? c) && (c <=? 90))%N then (c + 32)%N else c.

Definition is_ascii (c : char) : bool := (c <? 128)%N.

(** ** Text files

    A file opened in text mode with the default [newline=None] translates
    ["\r\n"] and ["\r"] to ["\n"] on reading; iterating over it yields the
    lines with their terminator, the last one possibly without. *)

Fixpoint universal_newlines (s : str) : str :=
  match s with
  | [] => []
  | c :: s' =>
      if N.eqb c CR then
        match s' with
        | c' :: s'' => if N.eqb c' NL then NL :: universal_newlines s''
                       else NL :: universal_newlines s'
        | [] => [NL]
        end
      else c :: universal_newlines s'
  end.

(** [cur] is the line read so far, in reverse. *)
Fixpoint lines_from (cur : str) (s : str) : list str :=
  match s with
  | [] => match cur with [] => [] | _ => [rev cur] end
  | c :: s' =>
      if N.eqb c NL then rev (c :: cur) :: lines_from [] s'
      else lines_from (c :: cur) s'
  end.

(** [for line in f] on a file with content [s]. *)
Definition file_lines (s : str) : list str := lines_from [] (universal_newlines s).

(** ** The dictionary [env_vars]

    A Python [dict] iterates in insertion order; assigning to a key that is
    present keeps its position. *)

Definition dict := list (str * str).

Fixpoint dict_get (k : str) (d : dict) : option str :=
  match d with
  | [] => None
  | (k', v) :: d' => if str_eqb k k' then Some v else dict_get k d'
  end.

(** [k in d] *)
Definition dict_mem (k : str) (d : dict) : bool :=
  match dict_get k d with Some _ => true | None => false end.

(** [d[k] = v] *)
Fixpoint dict_set (k v : str) (d : dict) : dict :=
  match d with
  | [] => [(k, v)]
  | (k', v') :: d' =>
      if str_eqb k k' then (k', v) :: d' else (k', v') :: dict_set k v d'
  end.

(** [del d[k]], on a key that is present. *)
Fixpoint dict_del (k : str) (d : dict) : dict :=
  match d with
  | [] => []
  | (k', v') :: d' => if str_eqb k k' then d' else (k', v') :: dict_del k d'
  end.

Definition keys (d : dict) : list str := map fst d.

(** [sorted(d.items())]: tuples compare by key, then by value; the sort is
    stable. *)
Definition item_ltb (a b : str * str) : bool :=
  str_ltb (fst a) (fst b) || (str_eqb (fst a) (fst b) && str_ltb (snd a) (snd b)).

Fixpoint insert_sorted (x : str * str) (l : dict) : dict :=
  match l with
  | [] => [x]
  | y :: l' => if item_ltb x y then x :: l else y :: insert_sorted x l'
  end.

Definition sorted (d : dict) : dict :=
  fold_left (fun acc x => insert_sorted x acc) d [].

(** The text [save_env_vars] writes: [f"{key}={value}\n"] for each item. *)
Definition env_line (kv : str * str) : str := fst kv ++ EQ :: snd kv ++ [NL].

Definition serialize (d : dict) : str := List.concat (map env_line d).

(** ** The world the program runs in *)

(** What the terminal delivers to a pending [input()]: a line typed by the
    user, or Ctrl-C. *)
Inductive event :=
| Line (s : str)
| Interrupt.

Inductive exn :=
| EOFError
| KeyboardInterrupt
| SystemExit (code : Z)
| FileNotFoundError
| ValueError
| KeyError (k : str).

Record World := mkWorld {
  env_file : str;               (* self.env_file, the path *)
  env_vars : dict;              (* self.env_vars *)
  completer_keys : list str;    (* self.completer.keys *)
  disk : option str;            (* the text of the file at that path, if any *)
  writes : nat;                 (* how often the file was opened for writing *)
  stdin : list event;
  stdout : list str;            (* the chunks written, oldest first *)
  sigint_tripped : bool;        (* a SIGINT is under way and not yet handled *)
  sigint_handler : bool;        (* handle_interrupt is installed for SIGINT *)
  sigint_delay : nat            (* the checks that pass before it arrives *)
}.

Definition set_env_file (p : str) (w : World) : World :=
  mkWorld p (env_vars w) (completer_keys w) (disk w) (writes w) (stdin w)
          (stdout w) (sigint_tripped w) (sigint_handler w) (sigint_delay w).
Definition set_env_vars (d : dict) (w : World) : World :=
  mkWorld (env_file w) d (completer_keys w) (disk w) (writes w) (stdin w)
          (stdout w) (sigint_tripped w) (sigint_handler w) (sigint_delay w).
Definition set_completer_keys (ks : list str) (w : World) : World :=
  mkWorld (env_file w) (env_vars w) ks (disk w) (writes w) (stdin w)
          (stdout w) (sigint_tripped w) (sigint_handler w) (sigint_delay w).
Definition set_disk (f : option str) (w : World) : World :=
  mkWorld (env_file w) (env_vars w) (completer_keys w) f (writes w) (stdin w)
          (stdout w) (sigint_tripped w) (sigint_handler w) (sigint_delay w).
Definition set_writes (n : nat) (w : World) : World :=
  mkWorld (env_file w) (env_vars w) (completer_keys w) (disk w) n (stdin w)
          (stdout w) (sigint_tripped w) (sigint_handler w) (sigint_delay w).
Definition set_stdin (i : list event) (w : World) : World :=
  mkWorld (env_file w) (env_vars w) (completer_keys w) (disk w) (writes w) i
          (stdout w) (sigint_tripped w) (sigint_handler w) (sigint_delay w).
Definition set_stdout (o : list str) (w : World) : World :=
  mkWorld (env_file w) (env_vars w) (completer_keys w) (disk w) (writes w)
          (stdin w) o (sigint_tripped w) (sigint_handler w) (sigint_delay w).
Definition set_sigint_tripped (b : bool) (w : World) : World :=
  mkWorld (env_file w) (env_vars w) (completer_keys w) (disk w) (writes w)
          (stdin w) (stdout w) b (sigint_handler w) (sigint_delay w).
Definition set_sigint_handler (b : bool) (w : World) : World :=
  mkWorld (env_file w) (env_vars w) (completer_keys w) (disk w) (writes w)
          (stdin w) (stdout w) (sigint_tripped w) b (sigint_delay w).
Definition set_sigint_delay (n : nat) (w : World) : World :=
  mkWorld (env_file w) (env_vars w) (completer_keys w) (disk w) (writes w)
          (stdin w) (stdout w) (sigint_tripped w) (sigint_handler w) n.

(** ** The monad: state and exceptions *)

Inductive result (A : Type) :=
| Ok (a : A)
| Raise (e : exn).
Arguments Ok {A} a.
Arguments Raise {A} e.

Definition M (A : Type) := World -> result A * World.

Definition ret {A} (a : A) : M A := fun w => (Ok a, w).
Definition raise {A} (e : exn) : M A := fun w => (Raise e, w).
Definition bind {A B} (m : M A) (k : A -> M B) : M B :=
  fun w => match m w with
           | (Ok a, w') => k a w'
           | (Raise e, w') => (Raise e, w')
           end.

Notation "x <- m ;; k" := (bind m (fun x => k))
  (at level 61, m at next level, right associativity).
Notation "m ;; k" := (bind m (fun _ => k))
  (at level 61, right associativity).

(** [try: m except E: h], where [catches] tells the exceptions of class [E]. *)
Definition try_except {A} (m : M A) (catches : exn -> bool) (h : M A) : M A :=
  fun w => match m w with
           | (Raise e, w') => if catches e then h w' else (Raise e, w')
           | r => r
           end.

(** [for x in l: body] *)
Fixpoint for_each {A} (l : list A) (body : A -> M unit) : M unit :=
  match l with
  | [] => ret tt
  | x :: l' => body x ;; for_each l' body
  end.

Definition get {A} (f : World -> A) : M A := fun w => (Ok (f w), w).
Definition modify (f : World -> World) : M unit := fun w => (Ok tt, f w).

Definition is_FileNotFoundError (e : exn) : bool :=
  match e with FileNotFoundError => true | _ => false end.
Definition is_ValueError (e : exn) : bool :=
  match e with ValueError => true | _ => false end.
Definition is_KeyboardInterrupt (e : exn) : bool :=
  match e with KeyboardInterrupt => true | _ => false end.

(** ** Primitives of the interpreter *)

Definition write_stdout (s : str) : M unit :=
  modify (fun w => set_stdout (stdout w ++ [s]) w).

(** [EnvManager.handle_interrupt] *)
Definition handle_interrupt {A} : M A :=
  write_stdout (NL :: lit "Operation cancelled. Exiting..." ++ [NL]) ;;
  raise (SystemExit 0).

(** A SIGINT reaches the program: the installed handler runs, or the
    interpreter's default one, which raises KeyboardInterrupt. *)
Definition deliver_sigint {A} : M A :=
  fun w => if sigint_handler w then handle_interrupt w
           else raise KeyboardInterrupt w.

(** A signal is handled when the interpreter checks for signals, which it
    does around every call that leaves the method: printing, reading,
    opening and writing the file, installing the handler, renewing the
    completer.  A SIGINT that is under way lets [sigint_delay] of these
    checks pass and is handled at the next one: the delay tells at which
    point of the run it arrives. *)
Definition check_signals : M unit :=
  fun w => if sigint_tripped w then
             match sigint_delay w with
             | O => deliver_sigint (set_sigint_tripped false w)
             | S n => ret tt (set_sigint_delay n w)
             end
           else ret tt w.

(** [print(s)] *)
Definition print (s : str) : M unit :=
  check_signals ;; write_stdout (s ++ [NL]).

(** [input(prompt)] *)
Definition input (prompt : str) : M str :=
  check_signals ;;
  write_stdout prompt ;;
  fun w => match stdin w with
           | [] => raise EOFError w
           | Line s :: rest => ret s (set_stdin rest w)
           | Interrupt :: rest => deliver_sigint (set_stdin rest w)
           end.

(** [open(self.env_file, 'r')] and the lines the file object yields. *)
Definition open_r : M (list str) :=
  check_signals ;;
  fun w => match disk w with
           | None => raise FileNotFoundError w
           | Some c => ret (file_lines c) w
           end.

(** [open(self.env_file, 'w')]: the file is created or truncated.  The path
    is taken to be writable: an OSError of [open] is not in the model. *)
Definition open_w : M unit :=
  check_signals ;;
  modify (fun w => set_writes (S (writes w)) (set_disk (Some []) w)).

(** [f.write(s)] on the file opened for writing.  The text is taken to be
    encodable: a UnicodeEncodeError of [write] is not in the model.  What was
    written stays in the file when the block is left by an exception. *)
Definition f_write (s : str) : M unit :=
  check_signals ;;
  modify (fun w => set_disk (Some (match disk w with
                                   | Some c => c ++ s
                                   | None => s
                                   end)) w).

(** [signal.signal(signal.SIGINT, self.handle_interrupt)] *)
Definition signal_sigint : M unit :=
  check_signals ;;
  modify (set_sigint_handler true).

(** [self.env_vars[key]] *)
Definition getitem (k : str) : M str :=
  fun w => match dict_get k (env_vars w) with
           | Some v => ret v w
           | None => raise (KeyError k) w
           end.

(** [self.env_vars[key] = value] *)
Definition setitem (k v : str) : M unit :=
  modify (fun w => set_env_vars (dict_set k v (env_vars w)) w).

(** [del self.env_vars[key]] *)
Definition delitem (k : str) : M unit :=
  fun w => if dict_mem k (env_vars w)
           then modify (fun w => set_env_vars (dict_del k (env_vars w)) w) w
           else raise (KeyError k) w.

(** [key, value = parts] *)
Definition unpack2 (parts : list str) : M (str * str) :=
  match parts with
  | [a; b] => ret (a, b)
  | _ => raise ValueError
  end.

(** Truth value of a string: it is not empty. *)
Definition truthy (s : str) : bool :=
  match s with [] => false | _ => true end.

(** ** The program *)

Section Program.

(** [str.lower] on strings that hold a character outside ASCII. *)
Variable lower_wide : str -> str.

(** [s.lower()] *)
Definition lower (s : str) : str :=
  if forallb is_ascii s then map ascii_lower s else lower_wide s.

(** [EnvManager.setup_readline]: the bindings of readline do not show in the
    model; the completer gets the keys of the moment. *)
Definition setup_readline : M unit :=
  check_signals ;;
  modify (fun w => set_completer_keys (keys (env_vars w)) w).

(** [EnvManager.load_env_vars] *)
Definition load_env_vars : M unit :=
  modify (set_env_vars []) ;;
  try_except
    (f <- open_r ;;
     for_each f (fun line =>
       let line := strip line in
       if truthy line && negb (startswith HASH line) then
         try_except
           (kv <- unpack2 (split1 EQ line) ;;
            setitem (strip (fst kv)) (strip (snd kv)))
           is_ValueError
           (ret tt)
       else ret tt))
    is_FileNotFoundError
    (path <- get env_file ;;
     print (lit "Creating new env file: " ++ path)).

(** [EnvManager.save_env_vars] *)
Definition save_env_vars : M unit :=
  open_w ;;
  items <- get env_vars ;;
  for_each items (fun kv => f_write (fst kv ++ [EQ] ++ snd kv ++ [NL])).

(** [EnvManager.list_vars] *)
Definition list_vars : M unit :=
  d <- get env_vars ;;
  match d with
  | [] => print (lit "No environment variables found.")
  | _ =>
      print (NL :: lit "Current Environment Variables:") ;;
      print (repeat 45%N 50) ;;
      for_each (sorted d) (fun kv => print (fst kv ++ lit " = " ++ snd kv)) ;;
      print (repeat 45%N 50)
  end.

(** [EnvManager.add_var] *)
Definition add_var : M unit :=
  print (NL :: lit "Press Tab for suggestions or Ctrl+C to cancel") ;;
  reply <- input (lit "Enter key: ") ;;
  let key := strip reply in
  if negb (truthy key) then print (lit "Key cannot be empty!")
  else
    d <- get env_vars ;;
    if dict_mem key d then
      print (lit "Key already exists! Use edit option to modify.")
    else
      reply <- input (lit "Enter value: ") ;;
      let value := strip reply in
      setitem key value ;;
      save_env_vars ;;
      print (lit "Added: " ++ key ++ [EQ] ++ value) ;;
      setup_readline.

(** [EnvManager.edit_var] *)
Definition edit_var : M unit :=
  list_vars ;;
  print (NL :: lit "Press Tab for suggestions or Ctrl+C to cancel") ;;
  reply <- input (lit "Enter key to edit: ") ;;
  let key := strip reply in
  d <- get env_vars ;;
  if negb (dict_mem key d) then print (lit "Key not found!")
  else
    current_value <- getitem key ;;
    print (lit "Current value: " ++ current_value) ;;
    reply <- input (lit "Enter new value (press Enter to keep current): ") ;;
    let value := strip reply in
    value <- (if negb (truthy value)
              then print (lit "Keeping current value.") ;; ret current_value
              else ret value) ;;
    setitem key value ;;
    save_env_vars ;;
    print (lit "Updated: " ++ key ++ [EQ] ++ value).

(** [EnvManager.delete_var] *)
Definition delete_var : M unit :=
  list_vars ;;
  print (NL :: lit "Press Tab for suggestions or Ctrl+C to cancel") ;;
  reply <- input (lit "Enter key to delete: ") ;;
  let key := strip reply in
  d <- get env_vars ;;
  if negb (dict_mem key d) then print (lit "Key not found!")
  else
    reply <- input (lit "Are you sure you want to delete " ++ key
                    ++ lit "? (y/N): ") ;;
    let confirm := lower (strip reply) in
    if str_eqb confirm (lit "y") then
      delitem key ;;
      save_env_vars ;;
      print (lit "Deleted: " ++ key) ;;
      setup_readline
    else print (lit "Deletion cancelled.").

(** [EnvManager.__init__] *)
Definition EnvManager_init (path : str) : M unit :=
  modify (set_env_file path) ;;
  modify (set_env_vars []) ;;
  load_env_vars ;;
  signal_sigint ;;
  setup_readline.

(** One turn of the [while True] loop of [main], with its [try]; the result
    tells whether the loop goes on. *)
Definition menu_turn : M bool :=
  try_except
    (print (NL :: lit "Environment Variable Manager") ;;
     print (lit "1. List all variables") ;;
     print (lit "2. Add new variable") ;;
     print (lit "3. Edit variable") ;;
     print (lit "4. Delete variable") ;;
     print (lit "5. Exit") ;;
     reply <- input (NL :: lit "Enter your choice (1-5): ") ;;
     let choice := strip reply in
     if str_eqb choice (lit "1") then list_vars ;; ret true
     else if str_eqb choice (lit "2") then add_var ;; ret true
     else if str_eqb choice (lit "3") then edit_var ;; ret true
     else if str_eqb choice (lit "4") then delete_var ;; ret true
     else if str_eqb choice (lit "5") then print (lit "Goodbye!") ;; ret false
     else print (lit "Invalid choice. Please try again.") ;; ret true)
    is_KeyboardInterrupt
    (print (NL :: lit "Goodbye!") ;; ret false).

(** The loop, unrolled at most [fuel] times; [None] when that is not enough. *)
Fixpoint main_loop (fuel : nat) (w : World) : option (result unit * World) :=
  match fuel with
  | O => None
  | S fuel' =>
      match menu_turn w with
      | (Ok true, w') => main_loop fuel' w'
      | (Ok false, w') => Some (Ok tt, w')
      | (Raise e, w') => Some (Raise e, w')
      end
  end.

(** [main], for the path given with [--file]. *)
Definition main (path : str) (fuel : nat) (w : World)
  : option (result unit * World) :=
  match (EnvManager_init path ;;
         print (NL :: lit "Tip: Use Ctrl+C to exit at any time") ;;
         print (lit "Tip: Use Tab for key suggestions when editing/deleting")) w
  with
  | (Ok _, w') => main_loop fuel w'
  | (Raise e, w') => Some (Raise e, w')
  end.

(** How the process ends: [main] returns or [sys.exit(code)] is called, or an
    exception reaches the top level and the interpreter reports it. *)
Inductive ending :=
| Exit (code : Z)
| Uncaught (e : exn).

Definition ending_of (r : result unit) : ending :=
  match r with
  | Ok _ => Exit 0
  | Raise (SystemExit c) => Exit c
  | Raise e => Uncaught e
  end.

End Program.

(** ** Derived descriptions used in the statements *)

(** What one pass of the loop of [load_env_vars] does to the mapping. *)
Definition load_line (line : str) (d : dict) : dict :=
  let line := strip line in
  if truthy line && negb (startswith HASH line) then
    match split1 EQ line with
    | [key; value] => dict_set (strip key) (strip value) d
    | _ => d
    end
  else d.

Definition load_lines (ls : list str) : dict :=
  fold_left (fun d l => load_line l d) ls [].

(** The chunks [list_vars] prints for a mapping. *)
Definition listing (d : dict) : list str :=
  match d with
  | [] => [lit "No environment variables found." ++ [NL]]
  | _ => [NL :: lit "Current Environment Variables:" ++ [NL]]
         ++ [repeat 45%N 50 ++ [NL]]
         ++ map (fun kv => (fst kv ++ lit " = " ++ snd kv) ++ [NL]) (sorted d)
         ++ [repeat 45%N 50 ++ [NL]]
  end.

(** The notice of [handle_interrupt], as it reaches the terminal. *)
Definition cancel_notice : str :=
  NL :: lit "Operation cancelled. Exiting..." ++ [NL].

(** The mapping, the file and the count of rewrites are those of [w]. *)
Definition untouched (w w' : World) : Prop :=
  env_vars w' = env_vars w /\ disk w' = disk w /\ writes w' = writes w.

(** How a call that checks for signals can end in [w], having printed [o],
    with the signal state [t] and [n] after it: the call returned, and a
    signal under way still is; or the signal arrived, and the handler of
    the moment ended the call, the notice of [handle_interrupt] being the
    last thing printed when it is installed. *)
Definition signal_outcome (w : World) (r : result unit) (o : list str)
           (t : bool) (n : nat) : Prop :=
  n <= sigint_delay w
  /\ ((r = Ok tt /\ t = sigint_tripped w)
      \/ (sigint_tripped w = true /\ t = false
          /\ if sigint_handler w
             then r = Raise (SystemExit 0)
                  /\ exists o', o = o' ++ [cancel_notice]
             else r = Raise KeyboardInterrupt)).

(** A program that only prints, as far as a signal lets it. *)
Definition prints_only (m : M unit) : Prop :=
  forall w, exists r o t n,
    m w = (r, set_sigint_delay n
                (set_sigint_tripped t (set_stdout (stdout w ++ o) w)))
    /\ signal_outcome w r o t n.

(** *** The reading of a file, in the words of the specification

    A line is taken as the file yields it.  [load_claimed] skips blank lines
    and lines starting with '#', then lines without '=', and stores the
    others split at the first '=' with key and value trimmed.
    [load_amended] differs in one place: a comment is a line whose first
    character after leading whitespace is '#'. *)

Definition blank (l : str) : bool := forallb isspace l.

Definition contains (c : char) (l : str) : bool := existsb (N.eqb c) l.

Fixpoint before (c : char) (l : str) : str :=
  match l with
  | [] => []
  | x :: l' => if N.eqb x c then [] else x :: before c l'
  end.

Fixpoint after (c : char) (l : str) : str :=
  match l with
  | [] => []
  | x :: l' => if N.eqb x c then l' else after c l'
  end.

Definition claimed_line (l : str) (d : dict) : dict :=
  if blank l || startswith HASH l then d
  else if negb (contains EQ l) then d
  else dict_set (strip (before EQ l)) (strip (after EQ l)) d.

Definition load_claimed (ls : list str) : dict :=
  fold_left (fun d l => claimed_line l d) ls [].

Definition amended_line (l : str) (d : dict) : dict :=
  if blank l || startswith HASH (lstrip l) then d
  else if negb (contains EQ l) then d
  else dict_set (strip (before EQ l)) (strip (after EQ l)) d.

Definition load_amended (ls : list str) : dict :=
  fold_left (fun d l => amended_line l d) ls [].

(** *** Shapes of keys and values *)

(** Neither the first nor the last character is whitespace. *)
Definition trimmed (s : str) : bool :=
  negb (isspace (hd 0%N s)) && negb (isspace (last s 0%N)).

Definition all_trimmed (d : dict) : bool :=
  forallb (fun kv => trimmed (fst kv) && trimmed (snd kv)) d.

(** No line break inside. *)
Definition one_line (s : str) : bool :=
  forallb (fun c => negb (N.eqb c NL) && negb (N.eqb c CR)) s.

(** A key that a line [key=value] gives back: no '=' inside, no '#' in front. *)
Definition plain_key (k : str) : bool :=
  negb (contains EQ k) && negb (startswith HASH k).

Fixpoint distinct (ks : list str) : bool :=
  match ks with
  | [] => true
  | k :: ks' => negb (existsb (str_eqb k) ks') && distinct ks'
  end.

(** The mappings that survive a trip through the file. *)
Definition storable (d : dict) : bool :=
  distinct (keys d)
  && forallb (fun kv => trimmed (fst kv) && trimmed (snd kv)
                        && one_line (fst kv) && one_line (snd kv)
                        && plain_key (fst kv)) d.

(** Saving, then building a new store on the same path, gives the mapping
    back. *)
Definition round_trip (w : World) : Prop :=
  let w1 := snd (save_env_vars w) in
  env_vars (snd (EnvManager_init (env_file w1) w1)) = env_vars w.

(** The worlds the program can be in: after the constructor, and after any
    call of a method from the menu. *)
Inductive reachable (lower_wide : str -> str) : World -> Prop :=
| reach_init path w :
    reachable lower_wide (snd (EnvManager_init path w))
| reach_list w :
    reachable lower_wide w -> reachable lower_wide (snd (list_vars w))
| reach_add w :
    reachable lower_wide w -> reachable lower_wide (snd (add_var w))
| reach_edit w :
    reachable lower_wide w -> reachable lower_wide (snd (edit_var w))
| reach_delete w :
    reachable lower_wide w ->
    reachable lower_wide (snd (delete_var lower_wide w)).

(** *** Worlds and texts of the examples *)

(** A process that has just started on [path]: nothing is loaded, nothing is
    printed, SIGINT has its default disposition. *)
Definition start (path : str) (file : option str) (replies : list event) : World :=
  mkWorld path [] [] file 0 replies [] false false 0.

(** A store holding [d], with the handler installed. *)
Definition store (d : dict) (file : option str) (replies : list event) : World :=
  mkWorld (lit ".env.example") d (keys d) file 0 replies [] false true 0.

Definition foo_bar : dict := [(lit "FOO", lit "bar")].

(** The file of the malformed-line example. *)
Definition four_lines : str :=
  lit "# comment" ++ [NL] ++ [NL] ++ lit "FOO=bar" ++ [NL] ++ lit "BADLINE" ++ [NL].

(** A commented-out assignment, indented. *)
Definition indented_comment : str := lit "  #X=1" ++ [NL].

(** [str.lower] as far as the examples go. *)
Definition lower_id (s : str) : str := s.

(** The file holds the mapping of [w'], written in one rewrite since [w]. *)
Definition saved (w w' : World) : Prop :=
  disk w' = Some (serialize (env_vars w')) /\ writes w' = S (writes w).

(** The method returns, has told the user [msg] last, and has changed
    neither mapping nor file. *)
Definition refused (m : M unit) (w : World) (msg : str) : Prop :=
  fst (m w) = Ok tt
  /\ untouched w (snd (m w))
  /\ last (stdout (snd (m w))) [] = msg ++ [NL].

(** The store that [main] builds when the process starts. *)
Definition session (file : option str) (replies : list event) : World :=
  snd (EnvManager_init (lit ".env.example")
         (start (lit ".env.example") file replies)).

(** A process at whose start a SIGINT is already on its way. *)
Definition start_interrupted (path : str) (file : option str) : World :=
  mkWorld path [] [] file 0 [] [] true false 0.

(** A store in which a turn has begun to add a key, and a SIGINT that
    arrives before the key is read: at the ninth check of the turn. *)
Definition interrupted_mid_input : World :=
  set_sigint_delay 8
    (set_sigint_tripped true
       (store foo_bar (Some four_lines) [Line (lit "2")])).

(** A store on which [add_var] is called, and a SIGINT that arrives after
    the mapping was changed and before the completer is renewed. *)
Definition interrupted_in_add : World :=
  set_sigint_delay 5
    (set_sigint_tripped true
       (store foo_bar (Some four_lines) [Line (lit "K"); Line (lit "v")])).

(** A store in which a turn adds the key [K], and a SIGINT that arrives
    while the file is written: at the thirteenth check of the turn. *)
Definition interrupted_while_saving : World :=
  set_sigint_delay 12
    (set_sigint_tripped true
       (store foo_bar (Some four_lines)
          [Line (lit "2"); Line (lit "K"); Line (lit "v")])).

(** The store after the user has added the key [A=B] with value [c]. *)
Definition key_with_equals : World :=
  snd (add_var (session None [Line (lit "A=B"); Line (lit "c")])).

(** A store loaded from a padded line, after a padded add and a padded
    edit. *)
Definition padded_session : World :=
  snd (edit_var
         (snd (add_var
                 (session (Some (lit "  A  =  b  " ++ [NL]))
                    [Line (lit "  K  "); Line (lit "  v  ");
                     Line (lit " A "); Line (lit "  w ")])))).

(** ** The completer and further descriptions *)

(** [s.startswith(p)] *)
Fixpoint has_prefix (p s : str) : bool :=
  match p, s with
  | [], _ => true
  | _ :: _, [] => false
  | x :: p', y :: s' => N.eqb x y && has_prefix p' s'
  end.

(** [l[i]] with the negative indices of Python; [None] stands for the
    IndexError. *)
Definition py_index {A} (l : list A) (i : Z) : option A :=
  if (0 <=? i)%Z then nth_error l (Z.to_nat i)
  else if (- Z.of_nat (List.length l) <=? i)%Z
       then nth_error l (Z.to_nat (Z.of_nat (List.length l) + i))
       else None.

(** [EnvCompleter.complete], on the keys the completer was built with: the
    IndexError is caught and gives [None]. *)
Definition complete (ks : list str) (text : str) (state : Z) : option str :=
  let matches := if truthy text then filter (has_prefix text) ks else ks in
  py_index matches state.

(** What a line of the file assigns, if anything: the test and the split of
    the loop of [load_env_vars]. *)
Definition parse_line (line : str) : option (str * str) :=
  let line := strip line in
  if truthy line && negb (startswith HASH line) then
    match split1 EQ line with
    | [key; value] => Some (strip key, strip value)
    | _ => None
    end
  else None.

(** The assignments of a file, in the order of its lines. *)
Definition assignments (ls : list str) : dict :=
  flat_map (fun l => match parse_line l with
                     | Some kv => [kv]
                     | None => []
                     end) ls.

(** The file holds the mapping as [save_env_vars] writes it. *)
Definition synced (w : World) : Prop :=
  disk w = Some (serialize (env_vars w)).

(** The completer offers the keys of the mapping. *)
Definition completer_current (w : World) : Prop :=
  completer_keys w = keys (env_vars w).

(** The line [list_vars] prints for an item. *)
Definition item_line (kv : str * str) : str :=
  (fst kv ++ lit " = " ++ snd kv) ++ [NL].

(** The text [s] with each newline written as carriage return and line
    feed, and as carriage return alone. *)
Definition with_crlf (s : str) : str :=
  flat_map (fun c => if N.eqb c NL then [CR; NL] else [c]) s.

Definition with_cr (s : str) : str :=
  map (fun c => if N.eqb c NL then CR else c) s.

(** The keys of a list of assignments, each at its first occurrence. *)
Definition first_keys (es : dict) : list str :=
  fold_left (fun acc kv => if existsb (str_eqb (fst kv)) acc then acc
                           else acc ++ [fst kv]) es [].

(** In the listing, [b] may follow [a]: it does not compare less. *)
Definition in_order (a b : str * str) : Prop := item_ltb b a = false.

(** A store with three entries that are not in alphabetical order. *)
Definition zoo : dict :=
  [(lit "ZED", lit "1"); (lit "ALPHA", lit "2"); (lit "MID", lit "3")].

(** * Properties *)

#[local] Arguments N.eqb : simpl never.
#[local] Arguments N.leb : simpl never.
#[local] Arguments N.ltb : simpl never.

(** ** Text *)

Lemma str_eqb_refl (a : str) : str_eqb a a = true.
Proof. induction a as [|x a IH]; simpl; [reflexivity|]. now rewrite N.eqb_refl. Qed.

Lemma str_eqb_eq (a b : str) : str_eqb a b = true <-> a = b.
Proof.
  split.
  - revert b; induction a as [|x a IH]; intros [|y b]; simpl; try discriminate; auto.
    intros H. apply andb_true_iff in H as [Hx Ha].
    apply N.eqb_eq in Hx. f_equal; auto.
  - intros ->. apply str_eqb_refl.
Qed.

Lemma str_eqb_neq (a b : str) : str_eqb a b = false <-> a <> b.
Proof.
  rewrite <- str_eqb_eq. destruct (str_eqb a b); split; congruence.
Qed.

Lemma str_eqb_sym (a b : str) : str_eqb a b = str_eqb b a.
Proof.
  destruct (str_eqb a b) eqn:E; symmetry.
  - apply str_eqb_eq. symmetry. now apply str_eqb_eq.
  - apply str_eqb_neq. intros ->. apply str_eqb_neq in E. congruence.
Qed.

(** *** Stripping *)

Lemma lstrip_blank_app (ws s : str) :
  blank ws = true -> lstrip (ws ++ s) = lstrip s.
Proof.
  induction ws as [|c ws IH]; simpl; [reflexivity|].
  intros H. apply andb_true_iff in H as [Hc Hws]. now rewrite Hc, IH.
Qed.

Lemma lstrip_nil (s : str) : lstrip s = [] <-> blank s = true.
Proof.
  induction s as [|c s IH]; simpl; [tauto|].
  destruct (isspace c); simpl; [exact IH|]. split; discriminate.
Qed.

Lemma lstrip_decompose (s : str) :
  exists ws, blank ws = true /\ s = ws ++ lstrip s.
Proof.
  induction s as [|c s (ws & Hws & Hs)]; simpl.
  - exists []. auto.
  - destruct (isspace c) eqn:Hc.
    + exists (c :: ws). simpl. rewrite Hc, Hws. split; [reflexivity|]. now f_equal.
    + exists []. auto.
Qed.

Lemma lstrip_hd (s : str) : isspace (hd 0%N (lstrip s)) = false.
Proof.
  induction s as [|c s IH]; simpl; [reflexivity|].
  destruct (isspace c) eqn:Hc; [exact IH|exact Hc].
Qed.

Lemma lstrip_fixed (s : str) : isspace (hd 0%N s) = false -> lstrip s = s.
Proof. destruct s as [|c s]; simpl; [reflexivity|]. now intros ->. Qed.

Lemma lstrip_app_keep (s t : str) :
  lstrip s <> [] -> lstrip (s ++ t) = lstrip s ++ t.
Proof.
  induction s as [|c s IH]; simpl; [congruence|].
  destruct (isspace c); auto.
Qed.

(** [rstrip] read from the front of the string. *)
Lemma rstrip_cons (c : char) (s : str) :
  rstrip (c :: s) =
  match rstrip s with
  | [] => if isspace c then [] else [c]
  | r => c :: r
  end.
Proof.
  unfold rstrip. simpl rev.
  destruct (lstrip (rev s)) as [|x xs] eqn:E.
  - apply lstrip_nil in E. rewrite lstrip_blank_app by exact E.
    simpl. destruct (isspace c); reflexivity.
  - rewrite lstrip_app_keep by (rewrite E; discriminate).
    rewrite E, rev_app_distr. simpl rev at 1. simpl.
    destruct (rev xs ++ [x]) eqn:E'; [now destruct (rev xs)|reflexivity].
Qed.

Lemma rstrip_nil_eq : rstrip [] = [].
Proof. reflexivity. Qed.

Lemma rstrip_nil (s : str) : rstrip s = [] <-> blank s = true.
Proof.
  induction s as [|c s IH]; [simpl; tauto|].
  rewrite rstrip_cons. simpl blank.
  destruct (rstrip s) eqn:E.
  - destruct (isspace c); simpl.
    + split; intros _; [now apply IH|reflexivity].
    + split; discriminate.
  - split; [discriminate|]. intros H. apply andb_true_iff in H as [_ H].
    apply IH in H. discriminate.
Qed.

Lemma rstrip_app_blank (s ws : str) :
  blank ws = true -> rstrip (s ++ ws) = rstrip s.
Proof.
  intros H. induction s as [|c s IH]; simpl.
  - rewrite rstrip_nil_eq. now apply rstrip_nil.
  - now rewrite !rstrip_cons, IH.
Qed.

Lemma rstrip_hd (s : str) :
  isspace (hd 0%N s) = false -> hd 0%N (rstrip s) = hd 0%N s.
Proof.
  destruct s as [|c s]; [reflexivity|]. simpl. intros Hc.
  rewrite rstrip_cons. destruct (rstrip s); [now rewrite Hc|reflexivity].
Qed.

Lemma rstrip_last (s : str) : isspace (last (rstrip s) 0%N) = false.
Proof.
  induction s as [|c s IH]; [reflexivity|].
  rewrite rstrip_cons. destruct (rstrip s) as [|x r] eqn:E.
  - destruct (isspace c) eqn:Hc; simpl; auto.
  - exact IH.
Qed.

Lemma rstrip_fixed (s : str) : isspace (last s 0%N) = false -> rstrip s = s.
Proof.
  induction s as [|c s IH]; [reflexivity|].
  rewrite rstrip_cons. destruct s as [|x s].
  - simpl. now intros ->.
  - intros H. rewrite IH by exact H. reflexivity.
Qed.

Lemma rstrip_lstrip_comm (s : str) : rstrip (lstrip s) = lstrip (rstrip s).
Proof.
  induction s as [|c s IH]; [reflexivity|].
  simpl lstrip at 1. rewrite rstrip_cons.
  destruct (isspace c) eqn:Hc.
  - rewrite IH. destruct (rstrip s) eqn:E; simpl; now rewrite ?Hc.
  - rewrite rstrip_cons. destruct (rstrip s); simpl; now rewrite Hc.
Qed.

Lemma strip_nil (s : str) : strip s = [] <-> blank s = true.
Proof.
  unfold strip. rewrite rstrip_nil.
  destruct (lstrip_decompose s) as (ws & Hws & Hs).
  split; intros H.
  - rewrite Hs. unfold blank in *. rewrite forallb_app. now rewrite Hws, H.
  - apply lstrip_nil in H. now rewrite H.
Qed.

Lemma strip_blank_app_l (ws s : str) :
  blank ws = true -> strip (ws ++ s) = strip s.
Proof. intros H. unfold strip. now rewrite lstrip_blank_app. Qed.

Lemma strip_blank_app_r (s ws : str) :
  blank ws = true -> strip (s ++ ws) = strip s.
Proof.
  intros H. unfold strip. rewrite !rstrip_lstrip_comm.
  now rewrite rstrip_app_blank.
Qed.

Lemma strip_trimmed (s : str) : trimmed (strip s) = true.
Proof.
  unfold trimmed, strip. rewrite rstrip_last.
  rewrite rstrip_hd by apply lstrip_hd. now rewrite lstrip_hd.
Qed.

Lemma trimmed_strip (s : str) : trimmed s = true -> strip s = s.
Proof.
  unfold trimmed, strip. intros H. apply andb_true_iff in H as [H1 H2].
  apply negb_true_iff in H1, H2.
  rewrite lstrip_fixed by exact H1. now apply rstrip_fixed.
Qed.

Lemma strip_idempotent (s : str) : strip (strip s) = strip s.
Proof. apply trimmed_strip, strip_trimmed. Qed.

Lemma strip_decompose (s : str) :
  exists ws1 ws2, blank ws1 = true /\ blank ws2 = true
                  /\ s = ws1 ++ strip s ++ ws2.
Proof.
  destruct (lstrip_decompose s) as (ws1 & H1 & Hs).
  assert (exists ws2, blank ws2 = true /\ lstrip s = rstrip (lstrip s) ++ ws2)
    as (ws2 & H2 & Ht).
  { generalize (lstrip s). intros t. induction t as [|c t (ws & Hws & Ht)].
    - exists []. auto.
    - rewrite rstrip_cons. destruct (rstrip t) as [|x r] eqn:E.
      + apply rstrip_nil in E. destruct (isspace c) eqn:Hc.
        * exists (c :: t). simpl. now rewrite Hc, E.
        * exists t. auto.
      + exists ws. split; [exact Hws|]. simpl. now f_equal. }
  exists ws1, ws2. unfold strip. rewrite <- Ht. auto.
Qed.

Lemma truthy_strip (s : str) : truthy (strip s) = negb (blank s).
Proof.
  destruct (strip s) eqn:E.
  - apply strip_nil in E. now rewrite E.
  - destruct (blank s) eqn:B; [|reflexivity].
    apply strip_nil in B. congruence.
Qed.

Lemma startswith_strip (c : char) (s : str) :
  startswith c (strip s) = startswith c (lstrip s).
Proof.
  unfold strip. pose proof (lstrip_hd s) as H.
  destruct (lstrip s) as [|x t]; [reflexivity|]. simpl in H.
  rewrite rstrip_cons. destruct (rstrip t); [now rewrite H|reflexivity].
Qed.

(** *** Splitting at a character *)

Lemma contains_app (c : char) (a b : str) :
  contains c (a ++ b) = contains c a || contains c b.
Proof. apply existsb_app. Qed.

Lemma blank_contains (c : char) (ws : str) :
  isspace c = false -> blank ws = true -> contains c ws = false.
Proof.
  intros Hc. induction ws as [|x ws IH]; simpl; [reflexivity|].
  intros H. apply andb_true_iff in H as [Hx Hws].
  rewrite IH by exact Hws. rewrite orb_false_r.
  apply N.eqb_neq. intros ->. congruence.
Qed.

Lemma split1_spec (c : char) (s : str) :
  split1 c s = if contains c s then [before c s; after c s] else [s].
Proof.
  induction s as [|x s IH]; simpl; [reflexivity|].
  rewrite (N.eqb_sym c x). destruct (N.eqb x c); simpl; [reflexivity|].
  rewrite IH. now destruct (contains c s).
Qed.

Lemma before_app_miss (c : char) (a b : str) :
  contains c a = false -> before c (a ++ b) = a ++ before c b.
Proof.
  induction a as [|x a IH]; simpl; [reflexivity|].
  rewrite (N.eqb_sym c x). destruct (N.eqb x c); simpl; [discriminate|].
  intros H. now rewrite IH.
Qed.

Lemma after_app_miss (c : char) (a b : str) :
  contains c a = false -> after c (a ++ b) = after c b.
Proof.
  induction a as [|x a IH]; simpl; [reflexivity|].
  rewrite (N.eqb_sym c x). destruct (N.eqb x c); simpl; [discriminate|]. auto.
Qed.

Lemma before_app_hit (c : char) (a b : str) :
  contains c a = true -> before c (a ++ b) = before c a.
Proof.
  induction a as [|x a IH]; simpl; [discriminate|].
  rewrite (N.eqb_sym c x). destruct (N.eqb x c); simpl; [reflexivity|].
  intros H. now rewrite IH.
Qed.

Lemma after_app_hit (c : char) (a b : str) :
  contains c a = true -> after c (a ++ b) = after c a ++ b.
Proof.
  induction a as [|x a IH]; simpl; [discriminate|].
  rewrite (N.eqb_sym c x). destruct (N.eqb x c); simpl; [reflexivity|]. auto.
Qed.

Lemma before_hit_here (c : char) (a b : str) :
  contains c a = false -> before c (a ++ c :: b) = a.
Proof.
  intros H. rewrite before_app_miss by exact H. simpl.
  now rewrite N.eqb_refl, app_nil_r.
Qed.

Lemma after_hit_here (c : char) (a b : str) :
  contains c a = false -> after c (a ++ c :: b) = b.
Proof.
  intros H. rewrite after_app_miss by exact H. simpl. now rewrite N.eqb_refl.
Qed.

(** The loop body of [load_env_vars] strips the line before it looks at it;
    on the line as read this is [amended_line]. *)
Lemma load_line_amended (l : str) (d : dict) : load_line l d = amended_line l d.
Proof.
  unfold load_line, amended_line.
  rewrite truthy_strip, startswith_strip, <- negb_orb.
  destruct (blank l || startswith HASH (lstrip l)); simpl; [reflexivity|].
  destruct (strip_decompose l) as (ws1 & ws2 & H1 & H2 & Hl).
  assert (N1 : contains EQ ws1 = false) by now apply blank_contains.
  assert (N2 : contains EQ ws2 = false) by now apply blank_contains.
  assert (Hc : contains EQ l = contains EQ (strip l)).
  { rewrite Hl at 1. rewrite !contains_app, N1, N2. simpl. apply orb_false_r. }
  rewrite split1_spec, Hc.
  destruct (contains EQ (strip l)) eqn:E; simpl; [|reflexivity].
  f_equal.
  - rewrite Hl at 2. rewrite before_app_miss by exact N1.
    rewrite before_app_hit by exact E. now rewrite strip_blank_app_l.
  - rewrite Hl at 2. rewrite after_app_miss by exact N1.
    rewrite after_app_hit by exact E. now rewrite strip_blank_app_r.
Qed.

Lemma load_lines_amended (ls : list str) : load_lines ls = load_amended ls.
Proof.
  unfold load_lines, load_amended. generalize (@nil (str * str)).
  induction ls as [|l ls IH]; intros d; simpl; [reflexivity|].
  now rewrite load_line_amended, IH.
Qed.

(** *** Lines of a file *)

Lemma universal_newlines_plain (s : str) :
  forallb (fun c => negb (N.eqb c CR)) s = true -> universal_newlines s = s.
Proof.
  induction s as [|c s IH]; simpl; [reflexivity|].
  intros H. apply andb_true_iff in H as [Hc Hs].
  apply negb_true_iff in Hc. rewrite Hc. now rewrite IH.
Qed.

Lemma lines_from_line (cur body rest : str) :
  contains NL body = false ->
  lines_from cur (body ++ NL :: rest)
  = (rev cur ++ body ++ [NL]) :: lines_from [] rest.
Proof.
  revert cur. induction body as [|c body IH]; intros cur; simpl.
  - intros _. reflexivity.
  - intros H. apply orb_false_iff in H as [Hc H].
    rewrite N.eqb_sym in Hc. rewrite Hc, IH by exact H.
    simpl. now rewrite <- app_assoc.
Qed.

Lemma one_line_no_NL (s : str) : one_line s = true -> contains NL s = false.
Proof.
  induction s as [|c s IH]; simpl; [reflexivity|].
  intros H. apply andb_true_iff in H as [Hc Hs].
  apply andb_true_iff in Hc as [Hc _]. apply negb_true_iff in Hc.
  rewrite N.eqb_sym in Hc. rewrite Hc. now apply IH.
Qed.

Lemma one_line_no_CR (s : str) :
  one_line s = true -> forallb (fun c => negb (N.eqb c CR)) s = true.
Proof.
  induction s as [|c s IH]; simpl; [reflexivity|].
  intros H. apply andb_true_iff in H as [Hc Hs].
  apply andb_true_iff in Hc as [_ Hc]. now rewrite Hc, IH.
Qed.

Lemma file_lines_serialize (d : dict) :
  forallb (fun kv => one_line (fst kv) && one_line (snd kv)) d = true ->
  file_lines (serialize d) = map env_line d.
Proof.
  intros H. unfold file_lines.
  rewrite universal_newlines_plain.
  - induction d as [|[k v] d IH]; [reflexivity|].
    simpl in H. apply andb_true_iff in H as [Hkv Hd].
    apply andb_true_iff in Hkv as [Hk Hv]. simpl in Hk, Hv.
    unfold serialize. simpl. unfold env_line at 1. simpl.
    replace ((k ++ EQ :: v ++ [NL]) ++ List.concat (map env_line d))
      with ((k ++ EQ :: v) ++ NL :: serialize d).
    + rewrite lines_from_line; [simpl; rewrite IH by exact Hd|].
      * now rewrite <- app_assoc.
      * rewrite contains_app. simpl.
        now rewrite !one_line_no_NL by assumption.
    + unfold serialize. rewrite <- !app_assoc. simpl. now rewrite <- app_assoc.
  - unfold serialize. induction d as [|[k v] d IH]; [reflexivity|].
    simpl in H. apply andb_true_iff in H as [Hkv Hd].
    apply andb_true_iff in Hkv as [Hk Hv]. simpl in Hk, Hv.
    simpl. unfold env_line at 1. simpl.
    rewrite !forallb_app. simpl. rewrite forallb_app. simpl.
    rewrite !andb_true_iff. repeat split; auto using one_line_no_CR.
Qed.

(** ** The dictionary *)

Lemma dict_mem_keys (k : str) (d : dict) :
  dict_mem k d = existsb (str_eqb k) (keys d).
Proof.
  unfold dict_mem. induction d as [|[k' v'] d IH]; simpl; [reflexivity|].
  destruct (str_eqb k k'); [reflexivity|exact IH].
Qed.

Lemma dict_mem_get (k : str) (d : dict) :
  dict_mem k d = true <-> exists v, dict_get k d = Some v.
Proof.
  unfold dict_mem. destruct (dict_get k d) as [v|].
  - split; eauto.
  - split; [discriminate|]. intros [v H]. discriminate.
Qed.

Lemma dict_set_absent (k v : str) (d : dict) :
  dict_mem k d = false -> dict_set k v d = d ++ [(k, v)].
Proof.
  rewrite dict_mem_keys. induction d as [|[k' v'] d IH]; simpl; [reflexivity|].
  destruct (str_eqb k k'); simpl; [discriminate|]. intros H. now rewrite IH.
Qed.

Lemma dict_set_same (k v : str) (d : dict) :
  dict_get k d = Some v -> dict_set k v d = d.
Proof.
  induction d as [|[k' v'] d IH]; simpl; [discriminate|].
  destruct (str_eqb k k'); [congruence|]. intros H. now rewrite IH.
Qed.

Lemma dict_get_set (k v : str) (d : dict) :
  dict_get k (dict_set k v d) = Some v.
Proof.
  induction d as [|[k' v'] d IH]; simpl.
  - now rewrite str_eqb_refl.
  - destruct (str_eqb k k') eqn:E; simpl; now rewrite E.
Qed.

Lemma keys_dict_set (k v : str) (d : dict) :
  keys (dict_set k v d) = if dict_mem k d then keys d else keys d ++ [k].
Proof.
  rewrite dict_mem_keys. induction d as [|[k' v'] d IH]; simpl; [reflexivity|].
  destruct (str_eqb k k'); simpl; [reflexivity|].
  rewrite IH. now destruct (existsb (str_eqb k) (keys d)).
Qed.

Lemma existsb_str_eqb_In (k : str) (ks : list str) :
  existsb (str_eqb k) ks = true <-> In k ks.
Proof.
  rewrite existsb_exists. split.
  - intros (x & Hx & E). apply str_eqb_eq in E. now subst.
  - intros H. exists k. split; [exact H|apply str_eqb_refl].
Qed.

Lemma distinct_NoDup (ks : list str) : distinct ks = true <-> NoDup ks.
Proof.
  induction ks as [|k ks IH]; simpl.
  - split; [constructor|reflexivity].
  - rewrite andb_true_iff, negb_true_iff, IH. split.
    + intros [H1 H2]. constructor; [|exact H2].
      rewrite <- existsb_str_eqb_In. congruence.
    + intros H. inversion H as [|? ? H1 H2]; subst. split; [|exact H2].
      destruct (existsb (str_eqb k) ks) eqn:E; [|reflexivity].
      now apply existsb_str_eqb_In in E.
Qed.

Lemma distinct_app_one (ks : list str) (k : str) :
  distinct ks = true -> existsb (str_eqb k) ks = false ->
  distinct (ks ++ [k]) = true.
Proof.
  rewrite !distinct_NoDup. intros H1 H2.
  apply NoDup_rev in H1. rewrite <- (rev_involutive (ks ++ [k])).
  apply NoDup_rev. rewrite rev_app_distr. simpl. constructor; [|exact H1].
  rewrite <- in_rev, <- existsb_str_eqb_In. congruence.
Qed.

Lemma distinct_dict_set (k v : str) (d : dict) :
  distinct (keys d) = true -> distinct (keys (dict_set k v d)) = true.
Proof.
  intros H. rewrite keys_dict_set. destruct (dict_mem k d) eqn:E; [exact H|].
  apply distinct_app_one; [exact H|]. now rewrite <- dict_mem_keys.
Qed.

Lemma keys_dict_del_incl (k x : str) (d : dict) :
  In x (keys (dict_del k d)) -> In x (keys d).
Proof.
  induction d as [|[k' v'] d IH]; simpl; [tauto|].
  destruct (str_eqb k k'); simpl; tauto.
Qed.

Lemma distinct_dict_del (k : str) (d : dict) :
  distinct (keys d) = true -> distinct (keys (dict_del k d)) = true.
Proof.
  rewrite !distinct_NoDup. induction d as [|[k' v'] d IH]; simpl; [auto|].
  intros H. inversion H as [|? ? H1 H2]; subst.
  destruct (str_eqb k k'); simpl; [exact H2|].
  constructor; [|now apply IH]. intros Hin. apply H1.
  eapply keys_dict_del_incl, Hin.
Qed.

Lemma dict_mem_del (k : str) (d : dict) :
  distinct (keys d) = true -> dict_mem k (dict_del k d) = false.
Proof.
  rewrite !dict_mem_keys. induction d as [|[k' v'] d IH]; simpl; [reflexivity|].
  intros H. apply andb_true_iff in H as [H1 H2]. apply negb_true_iff in H1.
  destruct (str_eqb k k') eqn:E; simpl.
  - apply str_eqb_eq in E. now subst.
  - rewrite E. now apply IH.
Qed.

Lemma all_trimmed_dict_set (k v : str) (d : dict) :
  trimmed k = true -> trimmed v = true -> all_trimmed d = true ->
  all_trimmed (dict_set k v d) = true.
Proof.
  intros Hk Hv. unfold all_trimmed.
  induction d as [|[k' v'] d IH]; simpl.
  - now rewrite Hk, Hv.
  - intros H. apply andb_true_iff in H as [H1 H2].
    apply andb_true_iff in H1 as [H1 H1'].
    destruct (str_eqb k k'); simpl.
    + now rewrite H1, Hv, H2.
    + now rewrite H1, H1', IH.
Qed.

Lemma all_trimmed_dict_del (k : str) (d : dict) :
  all_trimmed d = true -> all_trimmed (dict_del k d) = true.
Proof.
  unfold all_trimmed. induction d as [|[k' v'] d IH]; simpl; [auto|].
  intros H. apply andb_true_iff in H as [H1 H2].
  destruct (str_eqb k k'); simpl; [exact H2|]. now rewrite H1, IH.
Qed.

Lemma all_trimmed_get (k v : str) (d : dict) :
  all_trimmed d = true -> dict_get k d = Some v -> trimmed v = true.
Proof.
  unfold all_trimmed. induction d as [|[k' v'] d IH]; simpl; [discriminate|].
  intros H. apply andb_true_iff in H as [H1 H2].
  apply andb_true_iff in H1 as [_ H1].
  destruct (str_eqb k k'); [congruence|auto].
Qed.

(** *** What a load yields *)

Lemma load_line_cases (l : str) (d : dict) :
  load_line l d = d
  \/ exists k v, load_line l d = dict_set (strip k) (strip v) d.
Proof.
  unfold load_line.
  destruct (truthy (strip l) && negb (startswith HASH (strip l))); [|now left].
  destruct (split1 EQ (strip l)) as [|a [|b [|c r]]]; eauto.
Qed.

Lemma load_lines_shape (ls : list str) :
  all_trimmed (load_lines ls) = true /\ distinct (keys (load_lines ls)) = true.
Proof.
  unfold load_lines.
  assert (G : forall d, all_trimmed d = true /\ distinct (keys d) = true ->
              all_trimmed (fold_left (fun d l => load_line l d) ls d) = true
              /\ distinct (keys (fold_left (fun d l => load_line l d) ls d)) = true).
  { induction ls as [|l ls IH]; intros d Hd; simpl; [exact Hd|].
    apply IH. destruct (load_line_cases l d) as [->|(k & v & ->)]; [exact Hd|].
    destruct Hd as [H1 H2]. split.
    - apply all_trimmed_dict_set; auto using strip_trimmed.
    - now apply distinct_dict_set. }
  apply G. auto.
Qed.

(** *** Reading back what was saved *)

Lemma last_app_cons {A} (a b : list A) (x d : A) :
  last (a ++ x :: b) d = last (x :: b) d.
Proof.
  induction a as [|y a IH]; [reflexivity|].
  simpl app. rewrite <- IH. simpl. now destruct (a ++ x :: b) eqn:E; [destruct a|].
Qed.

Lemma trimmed_item_line (k v : str) :
  trimmed k = true -> trimmed v = true -> trimmed (k ++ EQ :: v) = true.
Proof.
  unfold trimmed. intros Hk Hv.
  apply andb_true_iff in Hk as [Hk _]. apply andb_true_iff in Hv as [_ Hv].
  apply andb_true_iff. split.
  - destruct k; [reflexivity|exact Hk].
  - rewrite last_app_cons.
    destruct v as [|x v]; [reflexivity|].
    change (last (EQ :: x :: v) 0%N) with (last (x :: v) 0%N). exact Hv.
Qed.

Lemma load_line_env_line (k v : str) (d : dict) :
  trimmed k = true -> trimmed v = true -> plain_key k = true ->
  load_line (env_line (k, v)) d = dict_set k v d.
Proof.
  intros Hk Hv Hp. apply andb_true_iff in Hp as [Pe Ph].
  apply negb_true_iff in Pe, Ph.
  unfold load_line, env_line. simpl fst. simpl snd.
  replace (k ++ EQ :: v ++ [NL]) with ((k ++ EQ :: v) ++ [NL])
    by (rewrite <- app_assoc; reflexivity).
  rewrite strip_blank_app_r by reflexivity.
  rewrite (trimmed_strip _ (trimmed_item_line _ _ Hk Hv)).
  assert (T : truthy (k ++ EQ :: v) = true) by now destruct k.
  assert (S : startswith HASH (k ++ EQ :: v) = false).
  { destruct k; [reflexivity|exact Ph]. }
  rewrite T, S. simpl.
  rewrite split1_spec, contains_app. simpl. rewrite orb_true_r.
  rewrite before_hit_here, after_hit_here by exact Pe.
  now rewrite !trimmed_strip.
Qed.

Lemma load_lines_serialize (d : dict) :
  storable d = true -> load_lines (map env_line d) = d.
Proof.
  unfold storable, load_lines. intros H. apply andb_true_iff in H as [Hd Hi].
  assert (G : forall acc,
            (forall k, In k (keys d) -> dict_mem k acc = false) ->
            fold_left (fun d l => load_line l d) (map env_line d) acc = acc ++ d).
  { clear -Hd Hi. induction d as [|[k v] d IH]; intros acc Hacc; simpl.
    - now rewrite app_nil_r.
    - simpl in Hd, Hi. apply andb_true_iff in Hd as [Hk Hd].
      apply negb_true_iff in Hk.
      apply andb_true_iff in Hi as [Hkv Hi].
      do 4 (apply andb_true_iff in Hkv as [Hkv ?]).
      cbn [fst snd] in *.
      rewrite load_line_env_line by assumption.
      rewrite dict_set_absent by (apply Hacc; now left).
      rewrite IH; [now rewrite <- app_assoc|assumption|assumption|].
      intros k' Hk'. rewrite dict_mem_keys. unfold keys.
      rewrite map_app, existsb_app. fold (keys acc).
      rewrite <- dict_mem_keys, Hacc by now right.
      cbn [map fst existsb orb]. rewrite orb_false_r.
      apply str_eqb_neq. intros ->.
      assert (existsb (str_eqb k) (keys d) = true) by now apply existsb_str_eqb_In.
      congruence. }
  apply G. reflexivity.
Qed.

(** ** Running the methods *)

(** Evaluation of the monad goes by [cbn]; text, dictionaries and the loops
    stay folded and are dealt with by their lemmas. *)
#[local] Arguments lit : simpl never.
#[local] Arguments app : simpl never.
#[local] Arguments repeat : simpl never.
#[local] Arguments strip : simpl never.
#[local] Arguments str_eqb : simpl never.
#[local] Arguments dict_get : simpl never.
#[local] Arguments dict_mem : simpl never.
#[local] Arguments dict_set : simpl never.
#[local] Arguments dict_del : simpl never.
#[local] Arguments keys : simpl never.
#[local] Arguments sorted : simpl never.
#[local] Arguments serialize : simpl never.
#[local] Arguments listing : simpl never.
#[local] Arguments file_lines : simpl never.
#[local] Arguments load_lines : simpl never.
#[local] Arguments lower : simpl never.
#[local] Arguments for_each : simpl never.
#[local] Arguments list_vars : simpl never.
#[local] Arguments save_env_vars : simpl never.
#[local] Arguments load_env_vars : simpl never.

(** A program is unfolded once it is given its world. *)
#[local] Arguments ret {A} _ _ /.
#[local] Arguments raise {A} _ _ /.
#[local] Arguments bind {A B} _ _ _ /.
#[local] Arguments try_except {A} _ _ _ _ /.
#[local] Arguments get {A} _ _ /.
#[local] Arguments modify _ _ /.
#[local] Arguments write_stdout _ _ /.
#[local] Arguments handle_interrupt {A} _ /.
#[local] Arguments deliver_sigint {A} _ /.
#[local] Arguments check_signals _ /.
#[local] Arguments print _ _ /.
#[local] Arguments input _ _ /.
#[local] Arguments open_r _ /.
#[local] Arguments open_w _ /.
#[local] Arguments f_write _ _ /.
#[local] Arguments signal_sigint _ /.
#[local] Arguments getitem _ _ /.
#[local] Arguments setitem _ _ _ /.
#[local] Arguments delitem _ _ /.
#[local] Arguments unpack2 _ _ /.
#[local] Arguments setup_readline _ /.
#[local] Arguments set_env_file _ _ /.
#[local] Arguments set_env_vars _ _ /.
#[local] Arguments set_completer_keys _ _ /.
#[local] Arguments set_disk _ _ /.
#[local] Arguments set_writes _ _ /.
#[local] Arguments set_stdin _ _ /.
#[local] Arguments set_stdout _ _ /.
#[local] Arguments set_sigint_tripped _ _ /.
#[local] Arguments set_sigint_handler _ _ /.
#[local] Arguments set_sigint_delay _ _ /.

(** Names the fields of a world and puts what is known of them in place. *)
Ltac open_world w :=
  let f := fresh "path" in
  let e := fresh "env" in
  let c := fresh "comp" in
  let d := fresh "file" in
  let n := fresh "n" in
  let i := fresh "ins" in
  let o := fresh "out" in
  let t := fresh "trip" in
  let h := fresh "hnd" in
  let l := fresh "dl" in
  destruct w as [f e c d n i o t h l];
  cbn [env_file env_vars completer_keys disk writes stdin stdout
       sigint_tripped sigint_handler sigint_delay] in *;
  subst.
#[local] Arguments cancel_notice : simpl never.

Lemma for_each_cons {A} (x : A) (l : list A) (body : A -> M unit) :
  for_each (x :: l) body = (body x ;; for_each l body).
Proof. reflexivity. Qed.

Lemma for_each_nil {A} (body : A -> M unit) : for_each [] body = ret tt.
Proof. reflexivity. Qed.

Lemma print_each_quiet {A} (f : A -> str) (l : list A) (w : World) :
  sigint_tripped w = false ->
  for_each l (fun x => print (f x)) w
  = (Ok tt, set_stdout (stdout w ++ map (fun x => f x ++ [NL]) l) w).
Proof.
  revert w. induction l as [|x l IH]; intros w Hw; open_world w.
  - rewrite for_each_nil. cbn. now rewrite app_nil_r.
  - rewrite for_each_cons. cbn. rewrite IH by reflexivity. cbn.
    now rewrite <- app_assoc.
Qed.

Lemma list_vars_quiet (w : World) :
  sigint_tripped w = false ->
  list_vars w = (Ok tt, set_stdout (stdout w ++ listing (env_vars w)) w).
Proof.
  intros Hw. open_world w. unfold list_vars, listing.
  destruct env as [|kv env]; [reflexivity|].
  set (d := kv :: env). cbn.
  rewrite print_each_quiet by reflexivity. cbn.
  now rewrite <- !app_assoc.
Qed.

Lemma write_each (l : dict) (w : World) (c : str) :
  sigint_tripped w = false ->
  disk w = Some c ->
  for_each l (fun kv => f_write (fst kv ++ [EQ] ++ snd kv ++ [NL])) w
  = (Ok tt, set_disk (Some (c ++ serialize l)) w).
Proof.
  revert w c. induction l as [|[k v] l IH]; intros w c Hq Hw; open_world w.
  - rewrite for_each_nil. cbn. unfold serialize. cbn. now rewrite app_nil_r.
  - rewrite for_each_cons. cbn.
    erewrite IH by reflexivity. cbn. unfold serialize, env_line.
    cbn [map List.concat fst snd].
    repeat (rewrite <- app_assoc || rewrite <- app_comm_cons). reflexivity.
Qed.

Lemma save_env_vars_quiet (w : World) :
  sigint_tripped w = false ->
  save_env_vars w
  = (Ok tt, set_writes (S (writes w))
              (set_disk (Some (serialize (env_vars w))) w)).
Proof.
  intros Hw. open_world w. unfold save_env_vars. cbn.
  erewrite write_each by reflexivity. reflexivity.
Qed.

(** *** With a signal under way

    A call that checks for signals runs to its end or is cut at one of its
    checks, by the handler of the moment. *)

Lemma signal_outcome_returned (w : World) :
  signal_outcome w (Ok tt) [] (sigint_tripped w) (sigint_delay w).
Proof. unfold signal_outcome. auto. Qed.

(** Opens a hypothesis on the outcome of a call run in an opened world. *)
Ltac split_outcome H :=
  let Hn := fresh "Hn" in
  unfold signal_outcome in H; cbn in H;
  destruct H as [Hn [[? ?]|(? & ? & H)]];
  [ subst
  | try discriminate; subst;
    repeat match type of H with
           | if ?b then _ else _ => destruct b
           end;
    first [ destruct H as (? & ? & ?); subst | subst ] ].

Lemma prints_only_print (s : str) : prints_only (print s).
Proof.
  intros w. open_world w.
  destruct trip; [destruct dl as [|dl]; [destruct hnd|]|]; cbn.
  - exists (Raise (SystemExit 0)), [cancel_notice], false, 0.
    split; [reflexivity|]. unfold signal_outcome. cbn.
    split; [lia|right]. repeat split. now exists [].
  - exists (Raise KeyboardInterrupt), [], false, 0. rewrite app_nil_r.
    split; [reflexivity|]. unfold signal_outcome. cbn. auto.
  - exists (Ok tt), [s ++ [NL]], true, dl.
    split; [reflexivity|]. unfold signal_outcome. cbn. auto.
  - exists (Ok tt), [s ++ [NL]], false, dl.
    split; [reflexivity|]. unfold signal_outcome. cbn. auto.
Qed.

Lemma prints_only_bind (m1 m2 : M unit) :
  prints_only m1 -> prints_only m2 -> prints_only (m1 ;; m2).
Proof.
  intros H1 H2 w. destruct (H1 w) as (r1 & o1 & t1 & n1 & E1 & O1).
  unfold bind. rewrite E1. destruct r1 as [[]|e].
  - match goal with |- context [m2 ?w1] =>
      destruct (H2 w1) as (r2 & o2 & t2 & n2 & E2 & O2) end.
    rewrite E2. exists r2, (o1 ++ o2), t2, n2.
    open_world w. cbn in *. rewrite <- app_assoc. split; [reflexivity|].
    unfold signal_outcome in *. cbn in *.
    destruct O1 as [L1 [[_ ->]|(_ & _ & O1)]];
      [|destruct hnd; [destruct O1 as [O1 _]|]; discriminate O1].
    destruct O2 as [L2 [O2|(-> & -> & O2)]]; split; try lia; auto.
    right. repeat split. destruct hnd; auto.
    destruct O2 as (-> & o' & ->). split; [reflexivity|].
    exists (o1 ++ o'). now rewrite app_assoc.
  - exists (Raise e), o1, t1, n1. split; [reflexivity|exact O1].
Qed.

Lemma prints_only_for_each {A} (body : A -> M unit) (l : list A) :
  (forall x, prints_only (body x)) -> prints_only (for_each l body).
Proof.
  intros Hb. induction l as [|x l IH].
  - intros w. exists (Ok tt), [], (sigint_tripped w), (sigint_delay w).
    rewrite for_each_nil. split; [|apply signal_outcome_returned].
    open_world w. cbn. now rewrite app_nil_r.
  - rewrite for_each_cons. now apply prints_only_bind.
Qed.

Lemma list_vars_any : prints_only list_vars.
Proof.
  intros w.
  assert (E : list_vars w
              = match env_vars w with
                | [] => print (lit "No environment variables found.")
                | _ =>
                    print (NL :: lit "Current Environment Variables:") ;;
                    print (repeat 45%N 50) ;;
                    for_each (sorted (env_vars w))
                      (fun kv => print (fst kv ++ lit " = " ++ snd kv)) ;;
                    print (repeat 45%N 50)
                end w) by reflexivity.
  rewrite E. destruct (env_vars w); [apply prints_only_print|].
  apply prints_only_bind; [apply prints_only_print|].
  apply prints_only_bind; [apply prints_only_print|].
  apply prints_only_bind; [|apply prints_only_print].
  apply prints_only_for_each. intros x. apply prints_only_print.
Qed.

Lemma write_each_any (l : dict) (w : World) (c : str) :
  disk w = Some c ->
  exists r o f t n,
    for_each l (fun kv => f_write (fst kv ++ [EQ] ++ snd kv ++ [NL])) w
    = (r, set_sigint_delay n
            (set_sigint_tripped t
               (set_stdout (stdout w ++ o) (set_disk (Some f) w))))
    /\ signal_outcome w r o t n
    /\ (r = Ok tt -> f = c ++ serialize l)
    /\ exists m, f = c ++ serialize (firstn m l).
Proof.
  revert w c. induction l as [|[k v] l IH]; intros w c Hc; open_world w.
  - exists (Ok tt), [], c, trip, dl. rewrite for_each_nil. cbn.
    rewrite !app_nil_r. split; [reflexivity|].
    split; [apply signal_outcome_returned|].
    split; [reflexivity|]. exists 0. cbn. now rewrite app_nil_r.
  - rewrite for_each_cons.
    assert (Hs : forall d, (c ++ k ++ [EQ] ++ v ++ [NL]) ++ serialize d
                           = c ++ serialize ((k, v) :: d)).
    { intros d. unfold serialize, env_line. cbn [map List.concat fst snd].
      repeat (rewrite <- app_assoc || rewrite <- app_comm_cons). reflexivity. }
    destruct trip; [destruct dl as [|dl]; [destruct hnd|]|]; cbn.
    + exists (Raise (SystemExit 0)), [cancel_notice], c, false, 0.
      split; [reflexivity|]. unfold signal_outcome. cbn.
      split; [split; [lia|right]; repeat split; now exists []|].
      split; [discriminate|]. exists 0. cbn. now rewrite app_nil_r.
    + exists (Raise KeyboardInterrupt), [], c, false, 0. rewrite app_nil_r.
      split; [reflexivity|]. unfold signal_outcome. cbn.
      split; [auto|]. split; [discriminate|].
      exists 0. cbn. now rewrite app_nil_r.
    + match goal with |- context [for_each l _ ?w1] =>
        destruct (IH w1 _ eq_refl) as (r & o & f & t & n' & E & Ho & F1 & m & F2)
      end.
      rewrite E. cbn. exists r, o, f, t, n'. split; [reflexivity|].
      split.
      { unfold signal_outcome in *. cbn in *.
        destruct Ho as [Hn Ho]. split; [lia|exact Ho]. }
      split.
      { intros Hr. rewrite (F1 Hr). apply Hs. }
      exists (S m). rewrite F2. apply Hs.
    + match goal with |- context [for_each l _ ?w1] =>
        destruct (IH w1 _ eq_refl) as (r & o & f & t & n' & E & Ho & F1 & m & F2)
      end.
      rewrite E. cbn. exists r, o, f, t, n'. split; [reflexivity|].
      split; [exact Ho|]. split.
      { intros Hr. rewrite (F1 Hr). apply Hs. }
      exists (S m). rewrite F2. apply Hs.
Qed.

Lemma save_env_vars_any (w : World) :
  exists r o f k t n,
    save_env_vars w
    = (r, set_sigint_delay n
            (set_sigint_tripped t
               (set_stdout (stdout w ++ o) (set_writes k (set_disk f w)))))
    /\ signal_outcome w r o t n
    /\ (r = Ok tt -> f = Some (serialize (env_vars w)) /\ k = S (writes w))
    /\ ((f = disk w /\ k = writes w)
        \/ (k = S (writes w)
            /\ exists m, f = Some (serialize (firstn m (env_vars w))))).
Proof.
  open_world w. unfold save_env_vars.
  destruct trip; [destruct dl as [|dl]; [destruct hnd|]|]; cbn.
  - exists (Raise (SystemExit 0)), [cancel_notice], file, n, false, 0.
    split; [reflexivity|]. unfold signal_outcome. cbn.
    split; [split; [lia|right]; repeat split; now exists []|].
    split; [discriminate|auto].
  - exists (Raise KeyboardInterrupt), [], file, n, false, 0.
    rewrite app_nil_r. split; [reflexivity|]. unfold signal_outcome. cbn.
    split; [auto|]. split; [discriminate|auto].
  - match goal with |- context [for_each env _ ?w1] =>
      destruct (write_each_any env w1 [] eq_refl)
        as (r & o & f & t & n' & E & Ho & F1 & m & F2) end.
    rewrite E. cbn. exists r, o, (Some f), (S n), t, n'.
    split; [reflexivity|]. split.
    { unfold signal_outcome in *. cbn in *.
      destruct Ho as [Hn Ho]. split; [lia|exact Ho]. }
    split; [intros Hr; now rewrite (F1 Hr)|].
    right. split; [reflexivity|]. exists m. now rewrite F2.
  - match goal with |- context [for_each env _ ?w1] =>
      destruct (write_each_any env w1 [] eq_refl)
        as (r & o & f & t & n' & E & Ho & F1 & m & F2) end.
    rewrite E. cbn. exists r, o, (Some f), (S n), t, n'.
    split; [reflexivity|]. split; [exact Ho|].
    split; [intros Hr; now rewrite (F1 Hr)|].
    right. split; [reflexivity|]. exists m. now rewrite F2.
Qed.

Lemma load_each (ls : list str) (w : World) :
  for_each ls (fun line =>
      let line := strip line in
      if truthy line && negb (startswith HASH line) then
        try_except
          (kv <- unpack2 (split1 EQ line) ;;
           setitem (strip (fst kv)) (strip (snd kv)))
          is_ValueError
          (ret tt)
      else ret tt) w
  = (Ok tt, set_env_vars
              (fold_left (fun d l => load_line l d) ls (env_vars w)) w).
Proof.
  revert w. induction ls as [|l ls IH]; intros w; open_world w.
  - reflexivity.
  - rewrite for_each_cons. cbn [fold_left]. unfold bind at 1.
    unfold load_line at 2. cbv zeta.
    destruct (truthy (strip l) && negb (startswith HASH (strip l))).
    + destruct (split1 EQ (strip l)) as [|a [|b [|c r]]]; cbn;
        rewrite IH; reflexivity.
    + cbn. rewrite IH. reflexivity.
Qed.

Lemma load_env_vars_file (w : World) (c : str) :
  sigint_tripped w = false -> disk w = Some c ->
  load_env_vars w = (Ok tt, set_env_vars (load_lines (file_lines c)) w).
Proof.
  intros Hw Hc. open_world w. unfold load_env_vars. cbn.
  rewrite load_each. reflexivity.
Qed.

Lemma load_env_vars_absent (w : World) :
  sigint_tripped w = false -> disk w = None ->
  load_env_vars w
  = (Ok tt, set_stdout (stdout w ++ [(lit "Creating new env file: "
                                       ++ env_file w) ++ [NL]])
              (set_env_vars [] w)).
Proof. intros Hw Hc. open_world w. reflexivity. Qed.

(** Whatever the world, a load leaves in the mapping what the lines of the
    file give, or nothing. *)
Lemma load_env_vars_mapping (w : World) :
  env_vars (snd (load_env_vars w)) = []
  \/ exists c, env_vars (snd (load_env_vars w)) = load_lines (file_lines c).
Proof.
  open_world w. unfold load_env_vars.
  destruct trip; [destruct dl as [|[|dl]]|]; destruct file as [c|]; cbn;
    try rewrite load_each; cbn; try destruct hnd; cbn; auto;
    right; eexists; reflexivity.
Qed.

Lemma truthy_true (s : str) : truthy s = true <-> s <> [].
Proof. destruct s; simpl; split; congruence. Qed.

(** *** [add_var] *)

Lemma add_var_empty_key (w : World) (k : str) (r : list event) :
  sigint_tripped w = false -> stdin w = Line k :: r -> strip k = [] ->
  refused add_var w (lit "Key cannot be empty!").
Proof.
  intros Hq Hi Hk. open_world w. unfold refused, untouched, add_var. cbn.
  rewrite Hk. cbn. rewrite !last_last. auto.
Qed.

Lemma add_var_duplicate (w : World) (k : str) (r : list event) :
  sigint_tripped w = false -> stdin w = Line k :: r ->
  strip k <> [] -> dict_mem (strip k) (env_vars w) = true ->
  refused add_var w (lit "Key already exists! Use edit option to modify.").
Proof.
  intros Hq Hi Hk Hm. apply truthy_true in Hk.
  open_world w. unfold refused, untouched, add_var. cbn.
  rewrite Hk. cbn. rewrite Hm. cbn. rewrite !last_last. auto.
Qed.

Lemma add_var_new (w : World) (k v : str) (r : list event) :
  sigint_tripped w = false -> stdin w = Line k :: Line v :: r ->
  strip k <> [] -> dict_mem (strip k) (env_vars w) = false ->
  fst (add_var w) = Ok tt
  /\ env_vars (snd (add_var w)) = dict_set (strip k) (strip v) (env_vars w)
  /\ saved w (snd (add_var w)).
Proof.
  intros Hq Hi Hk Hm. apply truthy_true in Hk.
  open_world w. unfold saved, add_var. cbn.
  rewrite Hk. cbn. rewrite Hm. cbn.
  rewrite save_env_vars_quiet by reflexivity. cbn. auto.
Qed.

(** *** [edit_var] *)

Lemma edit_var_missing (w : World) (k : str) (r : list event) :
  sigint_tripped w = false -> stdin w = Line k :: r ->
  dict_mem (strip k) (env_vars w) = false ->
  refused edit_var w (lit "Key not found!").
Proof.
  intros Hq Hi Hm. open_world w. unfold refused, untouched, edit_var. cbn.
  rewrite list_vars_quiet by reflexivity. cbn.
  rewrite Hm. cbn. rewrite !last_last. auto.
Qed.

Lemma edit_var_keep (w : World) (k v cur : str) (r : list event) :
  sigint_tripped w = false -> stdin w = Line k :: Line v :: r ->
  dict_get (strip k) (env_vars w) = Some cur -> strip v = [] ->
  fst (edit_var w) = Ok tt
  /\ env_vars (snd (edit_var w)) = env_vars w
  /\ saved w (snd (edit_var w)).
Proof.
  intros Hq Hi Hg Hv. open_world w. unfold saved, edit_var. cbn.
  rewrite list_vars_quiet by reflexivity. cbn.
  assert (Hm : dict_mem (strip k) env = true) by (apply dict_mem_get; eauto).
  rewrite Hm. cbn. rewrite Hg. cbn. rewrite Hv. cbn.
  rewrite save_env_vars_quiet by reflexivity. cbn.
  rewrite (dict_set_same _ _ _ Hg). auto.
Qed.

Lemma edit_var_overwrite (w : World) (k v cur : str) (r : list event) :
  sigint_tripped w = false -> stdin w = Line k :: Line v :: r ->
  dict_get (strip k) (env_vars w) = Some cur -> strip v <> [] ->
  fst (edit_var w) = Ok tt
  /\ env_vars (snd (edit_var w)) = dict_set (strip k) (strip v) (env_vars w)
  /\ saved w (snd (edit_var w)).
Proof.
  intros Hq Hi Hg Hv. apply truthy_true in Hv.
  open_world w. unfold saved, edit_var. cbn.
  rewrite list_vars_quiet by reflexivity. cbn.
  assert (Hm : dict_mem (strip k) env = true) by (apply dict_mem_get; eauto).
  rewrite Hm. cbn. rewrite Hg. cbn. rewrite Hv. cbn.
  rewrite save_env_vars_quiet by reflexivity. cbn. auto.
Qed.

(** *** [delete_var] *)

Lemma delete_var_missing (lw : str -> str) (w : World) (k : str) (r : list event) :
  sigint_tripped w = false -> stdin w = Line k :: r ->
  dict_mem (strip k) (env_vars w) = false ->
  refused (delete_var lw) w (lit "Key not found!").
Proof.
  intros Hq Hi Hm. open_world w. unfold refused, untouched, delete_var. cbn.
  rewrite list_vars_quiet by reflexivity. cbn.
  rewrite Hm. cbn. rewrite !last_last. auto.
Qed.

Lemma delete_var_cancel (lw : str -> str) (w : World) (k c : str) (r : list event) :
  sigint_tripped w = false -> stdin w = Line k :: Line c :: r ->
  dict_mem (strip k) (env_vars w) = true ->
  lower lw (strip c) <> lit "y" ->
  refused (delete_var lw) w (lit "Deletion cancelled.").
Proof.
  intros Hq Hi Hm Hc. apply str_eqb_neq in Hc.
  open_world w. unfold refused, untouched, delete_var. cbn.
  rewrite list_vars_quiet by reflexivity. cbn.
  rewrite Hm. cbn. rewrite Hc. cbn. rewrite !last_last. auto.
Qed.

Lemma delete_var_confirm (lw : str -> str) (w : World) (k c : str) (r : list event) :
  sigint_tripped w = false -> stdin w = Line k :: Line c :: r ->
  dict_mem (strip k) (env_vars w) = true ->
  lower lw (strip c) = lit "y" ->
  fst (delete_var lw w) = Ok tt
  /\ env_vars (snd (delete_var lw w)) = dict_del (strip k) (env_vars w)
  /\ saved w (snd (delete_var lw w)).
Proof.
  intros Hq Hi Hm Hc. apply str_eqb_eq in Hc.
  open_world w. unfold saved, delete_var. cbn.
  rewrite list_vars_quiet by reflexivity. cbn.
  rewrite Hm. cbn. rewrite Hc. cbn. rewrite Hm. cbn.
  rewrite save_env_vars_quiet by reflexivity. cbn. auto.
Qed.

(** *** The constructor *)

Lemma EnvManager_init_quiet (path : str) (w : World) :
  sigint_tripped w = false ->
  fst (EnvManager_init path w) = Ok tt
  /\ env_vars (snd (EnvManager_init path w))
     = match disk w with Some c => load_lines (file_lines c) | None => [] end
  /\ disk (snd (EnvManager_init path w)) = disk w
  /\ writes (snd (EnvManager_init path w)) = writes w
  /\ sigint_handler (snd (EnvManager_init path w)) = true
  /\ sigint_tripped (snd (EnvManager_init path w)) = false
  /\ stdin (snd (EnvManager_init path w)) = stdin w.
Proof.
  intros Hq. open_world w. unfold EnvManager_init. cbn.
  destruct file as [c|].
  - erewrite load_env_vars_file by reflexivity. cbn. auto 10.
  - rewrite load_env_vars_absent by reflexivity. cbn. auto 10.
Qed.

(** *** Walking through a run

    The run is put in front of the goal and taken to its next test, check
    or loop, on which the proof splits. *)

Lemma run_ends {A} (p : result A * World) (P : result A -> World -> Prop) :
  (let (r, w') := p in P r w') -> forall r w', p = (r, w') -> P r w'.
Proof. intros H r w' E. now rewrite E in H. Qed.

(** The test, check or call on which the run [p] waits. *)
Ltac stuck_at p :=
  lazymatch p with
  | match ?x with (_, _) => _ end => stuck_at x
  | match ?x with Ok _ => _ | Raise _ => _ end => stuck_at x
  | match ?x with [] => _ | _ :: _ => _ end => stuck_at x
  | match ?x with Line _ => _ | Interrupt => _ end => stuck_at x
  | match ?x with Some _ => _ | None => _ end => stuck_at x
  | match ?x with O => _ | S _ => _ end => stuck_at x
  | if ?x then _ else _ => stuck_at x
  | (if ?x then _ else _) _ => stuck_at x
  | _ => p
  end.

(** Takes the run in front as far as it goes by itself, the worlds kept in
    normal form. *)
Ltac walk_head :=
  repeat (progress
            (lazy head beta iota zeta
                  delta [bind ret raise try_except get modify write_stdout
                         handle_interrupt deliver_sigint check_signals print
                         input open_r open_w f_write signal_sigint getitem
                         setitem delitem unpack2 setup_readline menu_turn
                         add_var edit_var delete_var EnvManager_init
                         load_env_vars
                         is_KeyboardInterrupt is_ValueError
                         is_FileNotFoundError];
             cbn [set_env_file set_env_vars set_completer_keys set_disk
                  set_writes set_stdin set_stdout set_sigint_tripped
                  set_sigint_handler set_sigint_delay
                  env_file env_vars completer_keys disk writes stdin stdout
                  sigint_tripped sigint_handler sigint_delay])).

(** One step: a loop is replaced by what it does, a test or a check is
    split on, unless a hypothesis settles it. *)
Ltac walk_step :=
  walk_head;
  lazymatch goal with
  | |- match ?p with (_, _) => _ end =>
      let t := stuck_at p in
      lazymatch t with
      | list_vars ?w =>
          first [ rewrite (list_vars_quiet w) by reflexivity
                | let E := fresh "E" in
                  let H := fresh "Ho" in
                  destruct (list_vars_any w) as (? & ? & ? & ? & E & H);
                  rewrite E; clear E; split_outcome H ]
      | save_env_vars ?w =>
          first [ rewrite (save_env_vars_quiet w) by reflexivity
                | let E := fresh "E" in
                  let H := fresh "Ho" in
                  let F := fresh "Hf" in
                  destruct (save_env_vars_any w)
                    as (? & ? & ? & ? & ? & ? & E & H & F & _);
                  rewrite E; clear E; cbn in F; split_outcome H;
                  try (destruct (F eq_refl); subst); clear F ]
      | for_each _ _ _ => rewrite load_each
      | _ =>
          first [ match goal with H : t = _ |- _ => rewrite H end
                | is_var t;
                  let T := type of t in
                  lazymatch T with
                  | list event => destruct t as [|[?|] ?]
                  | _ => destruct t
                  end
                | destruct t eqn:? ]
      end
  end.

Ltac walk := repeat walk_step.

(** Puts the run of [m] that the goal speaks of in front, to be walked. *)
Ltac run_of m :=
  let r := fresh "r" in
  let w' := fresh "w'" in
  let E := fresh "E" in
  destruct m as [r w'] eqn:E; cbn [fst snd]; revert r w' E;
  refine (run_ends _ _ _).

Lemma list_vars_frame (w : World) :
  untouched w (snd (list_vars w))
  /\ stdin (snd (list_vars w)) = stdin w
  /\ completer_keys (snd (list_vars w)) = completer_keys w.
Proof.
  destruct (list_vars_any w) as (r & o & t & n' & E & _). rewrite E.
  unfold untouched. open_world w. cbn. auto.
Qed.

Lemma list_vars_mapping (w : World) : env_vars (snd (list_vars w)) = env_vars w.
Proof. apply list_vars_frame. Qed.

Lemma add_var_mapping (w : World) :
  env_vars (snd (add_var w)) = env_vars w
  \/ exists k v, env_vars (snd (add_var w))
                 = dict_set (strip k) (strip v) (env_vars w).
Proof.
  open_world w.
  match goal with |- context [add_var ?w0] => run_of (add_var w0) end.
  walk; cbn; eauto.
Qed.

Lemma edit_var_mapping (w : World) :
  env_vars (snd (edit_var w)) = env_vars w
  \/ exists k v, env_vars (snd (edit_var w))
                 = dict_set (strip k) (strip v) (env_vars w).
Proof.
  open_world w.
  match goal with |- context [edit_var ?w0] => run_of (edit_var w0) end.
  walk; cbn; eauto; left; now apply dict_set_same.
Qed.

Lemma delete_var_mapping (lw : str -> str) (w : World) :
  env_vars (snd (delete_var lw w)) = env_vars w
  \/ exists k, env_vars (snd (delete_var lw w)) = dict_del k (env_vars w).
Proof.
  open_world w.
  match goal with |- context [delete_var lw ?w0] =>
    run_of (delete_var lw w0) end.
  walk; cbn; eauto.
Qed.

Lemma EnvManager_init_mapping (path : str) (w : World) :
  env_vars (snd (EnvManager_init path w)) = []
  \/ exists c, env_vars (snd (EnvManager_init path w))
               = load_lines (file_lines c).
Proof.
  open_world w. unfold EnvManager_init, load_env_vars.
  destruct trip; [destruct dl as [|[|[|[|dl]]]]|]; destruct file as [c|]; cbn;
    try rewrite load_each; cbn; try destruct hnd; cbn; auto;
    right; eexists; reflexivity.
Qed.

(** A turn that lets the loop go on has read a reply, leaves the handler
    installed, and brings no signal of its own. *)
Lemma menu_turn_goes_on_any (lw : str -> str) (w : World) :
  sigint_handler w = true ->
  fst (menu_turn lw w) = Ok true ->
  sigint_handler (snd (menu_turn lw w)) = true
  /\ (sigint_tripped w = false -> sigint_tripped (snd (menu_turn lw w)) = false)
  /\ List.length (stdin (snd (menu_turn lw w))) < List.length (stdin w).
Proof.
  intros Hh. open_world w.
  match goal with |- context [menu_turn lw ?w0] => run_of (menu_turn lw w0) end.
  walk; cbn; intros Hr; try discriminate Hr; repeat split; auto; lia.
Qed.

Lemma menu_turn_goes_on (lw : str -> str) (w w' : World) :
  sigint_handler w = true -> sigint_tripped w = false ->
  menu_turn lw w = (Ok true, w') ->
  sigint_handler w' = true /\ sigint_tripped w' = false
  /\ List.length (stdin w') < List.length (stdin w).
Proof.
  intros Hh Hq E.
  pose proof (menu_turn_goes_on_any lw w Hh) as G. rewrite E in G.
  destruct (G eq_refl) as (H1 & H2 & H3). auto.
Qed.

(** The loop ends: every turn reads a reply or stops. *)
Lemma main_loop_ends (lw : str -> str) (fuel : nat) (w : World) :
  sigint_handler w = true -> sigint_tripped w = false ->
  List.length (stdin w) < fuel ->
  main_loop lw fuel w <> None.
Proof.
  revert w. induction fuel as [|fuel IH]; intros w Hh Hq Hl; [lia|].
  cbn [main_loop]. destruct (menu_turn lw w) as [[[|]|e] w'] eqn:E;
    try discriminate.
  destruct (menu_turn_goes_on lw w w' Hh Hq E) as (H1 & H2 & H3).
  apply IH; auto. lia.
Qed.

(** So does [main], when no signal is pending at the start. *)
Lemma main_ends (lw : str -> str) (path : str) (fuel : nat) (w : World) :
  sigint_tripped w = false ->
  List.length (stdin w) < fuel ->
  main lw path fuel w <> None.
Proof.
  intros Hq Hl. unfold main. unfold bind at 1.
  destruct (EnvManager_init_quiet path w Hq) as (H1 & _ & _ & _ & H2 & H3 & H4).
  destruct (EnvManager_init path w) as [r w1]. cbn [fst snd] in *. subst r.
  open_world w1. cbn. apply main_loop_ends; cbn; auto.
Qed.

(** A Ctrl-C at a prompt of a turn, by cases on the replies given before
    it and on the path the turn takes. *)
Lemma interrupt_in_turn (lw : str -> str) (w : World) (pre : list str)
      (rest : list event) :
  sigint_handler w = true -> sigint_tripped w = false ->
  stdin w = map Line pre ++ Interrupt :: rest ->
  fst (menu_turn lw (set_stdin (map Line pre) w)) = Raise EOFError ->
  fst (menu_turn lw w) = Raise (SystemExit 0)
  /\ untouched w (snd (menu_turn lw w))
  /\ last (stdout (snd (menu_turn lw w))) [] = cancel_notice
  /\ stdin (snd (menu_turn lw w)) = rest.
Proof.
  intros Hh Hq Hi.
  destruct pre as [|a [|b [|c pre]]]; cbv [map app] in Hi;
    open_world w; cbn [set_stdin map];
    (match goal with |- fst ?m = _ -> _ => run_of m end);
    walk; intros Hr; try discriminate Hr; clear Hr;
    (match goal with |- context [menu_turn lw ?w0] =>
       run_of (menu_turn lw w0) end);
    walk; cbn; unfold untouched; cbn;
    fold cancel_notice; rewrite ?last_last; auto.
Qed.

(** *** The signal in a turn, in the loop and in [main]

    With the handler installed, a signal under way either reaches the turn
    at one of its checks and ends it, or is nearer when the turn is over. *)
Lemma signal_in_turn (lw : str -> str) (w : World) :
  sigint_handler w = true -> sigint_tripped w = true ->
  (sigint_tripped (snd (menu_turn lw w)) = true
   /\ sigint_delay (snd (menu_turn lw w)) < sigint_delay w)
  \/ (sigint_tripped (snd (menu_turn lw w)) = false
      /\ fst (menu_turn lw w) = Raise (SystemExit 0)
      /\ last (stdout (snd (menu_turn lw w))) [] = cancel_notice).
Proof.
  intros Hh Ht. open_world w.
  match goal with |- context [menu_turn lw ?w0] => run_of (menu_turn lw w0) end.
  walk; cbn;
    first [ left; split; [reflexivity|lia]
          | right; split; [reflexivity|split; [reflexivity|]];
            fold cancel_notice; rewrite ?app_assoc; apply last_last
          | idtac ].
Qed.

Lemma signal_mid_input (lw : str -> str) (w : World) :
  sigint_handler w = true -> sigint_tripped w = true ->
  fst (menu_turn lw (set_sigint_tripped false w)) = Raise EOFError ->
  untouched w (snd (menu_turn lw w)).
Proof.
  intros Hh Ht. open_world w. cbn [set_sigint_tripped].
  match goal with |- fst ?m = _ -> _ => run_of m end.
  walk; intros Hr; try discriminate Hr; clear Hr;
    match goal with |- context [menu_turn lw ?w0] => run_of (menu_turn lw w0) end;
    walk; cbn; unfold untouched; cbn; auto.
Qed.
Lemma signal_pending (lw : str -> str) (w : World) :
  sigint_handler w = true -> sigint_tripped w = true -> sigint_delay w = 0 ->
  menu_turn lw w
  = (Raise (SystemExit 0),
     set_stdout (stdout w ++ [cancel_notice]) (set_sigint_tripped false w)).
Proof. intros Hh Ht Hd. open_world w. reflexivity. Qed.

Lemma signal_in_loop (lw : str -> str) (fuel : nat) (w : World) :
  sigint_handler w = true -> List.length (stdin w) < fuel ->
  exists r w',
    main_loop lw fuel w = Some (r, w')
    /\ (sigint_tripped w = true -> sigint_tripped w' = false ->
        r = Raise (SystemExit 0) /\ last (stdout w') [] = cancel_notice).
Proof.
  revert w. induction fuel as [|fuel IH]; intros w Hh Hl; [lia|].
  cbn [main_loop].
  pose proof (menu_turn_goes_on_any lw w Hh) as G.
  pose proof (signal_in_turn lw w Hh) as S1.
  destruct (menu_turn lw w) as [[[|]|e] w1] eqn:E; cbn [fst snd] in *.
  - destruct (G eq_refl) as (H1 & H2 & H3).
    destruct (IH w1 H1) as (r & w' & R1 & R2); [lia|].
    exists r, w'. split; [exact R1|]. intros Ht Ht'.
    destruct (S1 Ht) as [[T1 _]|(_ & T2 & _)]; [auto|discriminate T2].
  - exists (Ok tt), w1. split; [reflexivity|]. intros Ht Ht'.
    destruct (S1 Ht) as [[T1 _]|(_ & T2 & _)]; [congruence|discriminate T2].
  - exists (Raise e), w1. split; [reflexivity|]. intros Ht Ht'.
    destruct (S1 Ht) as [[T1 _]|(_ & T2 & T3)]; [congruence|].
    inversion T2. split; auto.
Qed.

(** The start of [main] when the signal leaves the constructor the time to
    install the handler: three checks at most come before that. *)
Lemma main_start_delayed (path : str) (w : World) :
  sigint_tripped w = true -> 3 <= sigint_delay w ->
  let p := (EnvManager_init path ;;
            print (NL :: lit "Tip: Use Ctrl+C to exit at any time") ;;
            print (lit "Tip: Use Tab for key suggestions when editing/deleting"))
             w in
  sigint_handler (snd p) = true
  /\ stdin (snd p) = stdin w
  /\ ((fst p = Ok tt /\ sigint_tripped (snd p) = true)
      \/ (fst p = Raise (SystemExit 0) /\ sigint_tripped (snd p) = false
          /\ last (stdout (snd p)) [] = cancel_notice)).
Proof.
  intros Ht Hd. open_world w. destruct dl as [|[|[|dl]]]; try lia. clear Hd.
  cbv zeta.
  match goal with |- context [snd ?p] => run_of p end.
  walk; cbn; repeat split;
    first [ left; split; reflexivity
          | right; repeat split; fold cancel_notice; apply last_last ].
Qed.

Lemma signal_in_main (lw : str -> str) (path : str) (fuel : nat) (w : World) :
  sigint_tripped w = true -> 3 <= sigint_delay w ->
  List.length (stdin w) < fuel ->
  exists r w',
    main lw path fuel w = Some (r, w')
    /\ (sigint_tripped w' = false ->
        r = Raise (SystemExit 0) /\ last (stdout w') [] = cancel_notice).
Proof.
  intros Ht Hd Hl. unfold main.
  pose proof (main_start_delayed path w Ht Hd) as S. cbv zeta in S.
  match type of S with context [snd ?p] => destruct p as [r1 w1] end.
  cbn [fst snd] in S. destruct S as (S1 & S2 & S3).
  destruct r1 as [[]|e].
  - destruct (signal_in_loop lw fuel w1 S1) as (r & w' & R1 & R2);
      [now rewrite S2|].
    exists r, w'. split; [exact R1|].
    destruct S3 as [[_ T]|[T _]]; [auto|discriminate T].
  - exists (Raise e), w1. split; [reflexivity|]. intros T.
    destruct S3 as [[T' _]|(T1 & _ & T3)]; [discriminate T'|].
    inversion T1. auto.
Qed.
(** ** Invariants of the store *)

Lemma reachable_distinct (lw : str -> str) (w : World) :
  reachable lw w -> distinct (keys (env_vars w)) = true.
Proof.
  induction 1 as [path w|w _ IH|w _ IH|w _ IH|w _ IH].
  - destruct (EnvManager_init_mapping path w) as [->|(c & ->)];
      [reflexivity|apply load_lines_shape].
  - now rewrite list_vars_mapping.
  - destruct (add_var_mapping w) as [->|(k & v & ->)];
      [exact IH|now apply distinct_dict_set].
  - destruct (edit_var_mapping w) as [->|(k & v & ->)];
      [exact IH|now apply distinct_dict_set].
  - destruct (delete_var_mapping lw w) as [->|(k & ->)];
      [exact IH|now apply distinct_dict_del].
Qed.

Lemma storable_one_line (d : dict) :
  storable d = true ->
  forallb (fun kv => one_line (fst kv) && one_line (snd kv)) d = true.
Proof.
  unfold storable. intros H. apply andb_true_iff in H as [_ H].
  rewrite forallb_forall in *. intros kv Hkv. specialize (H kv Hkv).
  do 4 (apply andb_true_iff in H as [H ?]).
  now apply andb_true_iff.
Qed.

(** ** The claims *)

(** C1, as amended.  For every mapping of distinct keys whose keys and values
    are trimmed and hold no line break, and whose keys contain no '=' and do
    not start with '#', [save_env_vars] followed by the construction of a new
    store on the same file succeeds and yields exactly that mapping. *)
Theorem round_trip_of_storable (w : World) :
  sigint_tripped w = false ->
  storable (env_vars w) = true ->
  fst (save_env_vars w) = Ok tt
  /\ fst (EnvManager_init (env_file w) (snd (save_env_vars w))) = Ok tt
  /\ round_trip w.
Proof.
  intros Hq Hs. unfold round_trip.
  rewrite save_env_vars_quiet by exact Hq. cbn [fst snd].
  set (w1 := set_writes _ _).
  assert (Hq1 : sigint_tripped w1 = false) by (destruct w; exact Hq).
  destruct (EnvManager_init_quiet (env_file w1) w1 Hq1) as (H1 & H2 & _).
  repeat split; [exact H1|]. rewrite H2.
  replace (disk w1) with (Some (serialize (env_vars w))) by now destruct w.
  rewrite file_lines_serialize by now apply storable_one_line.
  now apply load_lines_serialize.
Qed.

Lemma round_trip_of_storable_witness :
  round_trip (store foo_bar None []).
Proof.
  apply (round_trip_of_storable (store foo_bar None [])); reflexivity.
Defined.

(** C1, as stated, fails: the store reached by adding the key [A=B] with
    value [c] holds {A=B: c}; saved, the file reads [A=B=c], and a new store
    loads {A: B=c} from it. *)
Lemma round_trip_fails_on_key_with_equals :
  reachable lower_id key_with_equals
  /\ env_vars key_with_equals = [(lit "A=B", lit "c")]
  /\ disk (snd (save_env_vars key_with_equals)) = Some (lit "A=B=c" ++ [NL])
  /\ env_vars (snd (EnvManager_init (lit ".env.example")
                      (snd (save_env_vars key_with_equals))))
     = [(lit "A", lit "B=c")]
  /\ ~ round_trip key_with_equals.
Proof.
  split; [apply reach_add, reach_init|].
  repeat split; try (vm_compute; reflexivity).
  unfold round_trip. vm_compute. discriminate.
Qed.

(** C2.  After an add of a new key, an edit of a present key and a confirmed
    delete, the method has returned, and the backing file, opened for writing
    exactly once, holds the serialization of the mapping as it now is: one
    [key=value] line per entry in iteration order, whatever the file held
    before. *)
Theorem mutation_rewrites_file (lw : str -> str) (w : World) (k v : str)
        (r : list event) :
  sigint_tripped w = false ->
  stdin w = Line k :: Line v :: r ->
  (strip k <> [] -> dict_mem (strip k) (env_vars w) = false ->
   fst (add_var w) = Ok tt
   /\ env_vars (snd (add_var w)) = dict_set (strip k) (strip v) (env_vars w)
   /\ saved w (snd (add_var w)))
  /\ (dict_mem (strip k) (env_vars w) = true ->
      fst (edit_var w) = Ok tt /\ saved w (snd (edit_var w)))
  /\ (dict_mem (strip k) (env_vars w) = true -> lower lw (strip v) = lit "y" ->
      fst (delete_var lw w) = Ok tt
      /\ env_vars (snd (delete_var lw w)) = dict_del (strip k) (env_vars w)
      /\ saved w (snd (delete_var lw w))).
Proof.
  intros Hq Hi. split; [|split].
  - intros Hk Hm. now apply (add_var_new w k v r).
  - intros Hm. apply dict_mem_get in Hm as [cur Hg].
    destruct (strip v) as [|x s] eqn:Hv.
    + destruct (edit_var_keep w k v cur r) as (H1 & _ & H2); auto.
    + destruct (edit_var_overwrite w k v cur r) as (H1 & _ & H2); auto.
      congruence.
  - intros Hm Hy. now apply (delete_var_confirm lw w k v r).
Qed.

Lemma mutation_rewrites_file_witness :
  saved (store foo_bar (Some four_lines) [Line (lit "BAZ"); Line (lit "qux")])
        (snd (add_var (store foo_bar (Some four_lines)
                         [Line (lit "BAZ"); Line (lit "qux")])))
  /\ saved (store foo_bar (Some four_lines) [Line (lit "FOO"); Line (lit "y")])
           (snd (edit_var (store foo_bar (Some four_lines)
                             [Line (lit "FOO"); Line (lit "y")])))
  /\ saved (store foo_bar (Some four_lines) [Line (lit "FOO"); Line (lit "y")])
           (snd (delete_var lower_id
                   (store foo_bar (Some four_lines)
                      [Line (lit "FOO"); Line (lit "y")]))).
Proof.
  split; [|split].
  - apply (mutation_rewrites_file lower_id
             (store foo_bar (Some four_lines) [Line (lit "BAZ"); Line (lit "qux")])
             (lit "BAZ") (lit "qux") []); try reflexivity.
    vm_compute. discriminate.
  - apply (mutation_rewrites_file lower_id
             (store foo_bar (Some four_lines) [Line (lit "FOO"); Line (lit "y")])
             (lit "FOO") (lit "y") []); reflexivity.
  - apply (mutation_rewrites_file lower_id
             (store foo_bar (Some four_lines) [Line (lit "FOO"); Line (lit "y")])
             (lit "FOO") (lit "y") []); reflexivity.
Defined.

(** C3, as amended.  Whatever the file holds, [load_env_vars] returns with
    the mapping that the lines of the file give when read in order: a line
    that is blank, or whose first character after leading whitespace is '#',
    is skipped; so is any other line without '='; every other line is split
    at its first '=', key and value are trimmed, and the pair is stored, a
    later duplicate key overwriting the earlier one.  The file of the four
    lines [# comment], blank, [FOO=bar], [BADLINE] loads to {FOO: bar}. *)
Theorem load_env_vars_reads_lines (w : World) (c : str) :
  sigint_tripped w = false ->
  disk w = Some c ->
  load_env_vars w = (Ok tt, set_env_vars (load_amended (file_lines c)) w)
  /\ (c = four_lines -> env_vars (snd (load_env_vars w)) = foo_bar).
Proof.
  intros Hq Hc. rewrite (load_env_vars_file w c Hq Hc), load_lines_amended.
  split; [reflexivity|]. intros ->. destruct w. reflexivity.
Qed.

Lemma load_env_vars_reads_lines_witness :
  env_vars (snd (load_env_vars
                   (start (lit ".env.example") (Some four_lines) [])))
  = foo_bar.
Proof.
  apply (load_env_vars_reads_lines
           (start (lit ".env.example") (Some four_lines) []) four_lines);
    reflexivity.
Defined.

(** C3, as stated, fails: on the line [  #X=1], which is not blank, does not
    start with '#' and contains '=', the claimed reading stores {#X: 1},
    while [load_env_vars] strips the line first, sees a comment and stores
    nothing. *)
Lemma load_skips_indented_comment :
  load_claimed (file_lines indented_comment) = [(lit "#X", lit "1")]
  /\ load_env_vars (start (lit ".env.example") (Some indented_comment) [])
     = (Ok tt, start (lit ".env.example") (Some indented_comment) [])
  /\ env_vars (snd (load_env_vars
                      (start (lit ".env.example") (Some indented_comment) [])))
     <> load_claimed (file_lines indented_comment).
Proof.
  repeat split; try (vm_compute; reflexivity).
  vm_compute. discriminate.
Qed.

(** C4.  An empty key on add, a key already present on add, a key not
    present on edit or delete, and a reply other than y to the confirmation
    of a delete each end the method with its message: the mapping is the
    same, the file is the same and it has not been opened for writing. *)
Theorem input_errors_change_nothing (lw : str -> str) (w : World) (k c : str)
        (r : list event) :
  sigint_tripped w = false ->
  (stdin w = Line k :: r -> strip k = [] ->
   refused add_var w (lit "Key cannot be empty!"))
  /\ (stdin w = Line k :: r -> strip k <> [] ->
      dict_mem (strip k) (env_vars w) = true ->
      refused add_var w (lit "Key already exists! Use edit option to modify."))
  /\ (stdin w = Line k :: r -> dict_mem (strip k) (env_vars w) = false ->
      refused edit_var w (lit "Key not found!")
      /\ refused (delete_var lw) w (lit "Key not found!"))
  /\ (stdin w = Line k :: Line c :: r ->
      dict_mem (strip k) (env_vars w) = true ->
      lower lw (strip c) <> lit "y" ->
      refused (delete_var lw) w (lit "Deletion cancelled.")).
Proof.
  intros Hq. split; [|split; [|split]].
  - intros Hi Hk. now apply (add_var_empty_key w k r).
  - intros Hi Hk Hm. now apply (add_var_duplicate w k r).
  - intros Hi Hm. split.
    + now apply (edit_var_missing w k r).
    + now apply (delete_var_missing lw w k r).
  - intros Hi Hm Hc. now apply (delete_var_cancel lw w k c r).
Qed.

Lemma input_errors_change_nothing_witness :
  refused add_var (store foo_bar (Some four_lines) [Line (lit "FOO"); Line (lit "baz")])
          (lit "Key already exists! Use edit option to modify.").
Proof.
  apply (input_errors_change_nothing lower_id
           (store foo_bar (Some four_lines) [Line (lit "FOO"); Line (lit "baz")])
           (lit "FOO") (lit "baz") [Line (lit "baz")]);
    try reflexivity.
  vm_compute. discriminate.
Defined.

(** C5.  For a key that is present, [edit_var] returns; when the new value
    supplied (the reply, trimmed as every reply is) is empty, the mapping is
    what it was and the key keeps its value; otherwise the key now has the
    new value, the other entries and the order are the same, and the file
    holds the new mapping. *)
Theorem edit_var_keeps_or_overwrites (w : World) (k v cur : str)
        (r : list event) :
  sigint_tripped w = false ->
  stdin w = Line k :: Line v :: r ->
  dict_get (strip k) (env_vars w) = Some cur ->
  fst (edit_var w) = Ok tt
  /\ (strip v = [] ->
      env_vars (snd (edit_var w)) = env_vars w
      /\ dict_get (strip k) (env_vars (snd (edit_var w))) = Some cur)
  /\ (strip v <> [] ->
      env_vars (snd (edit_var w)) = dict_set (strip k) (strip v) (env_vars w)
      /\ dict_get (strip k) (env_vars (snd (edit_var w))) = Some (strip v)
      /\ saved w (snd (edit_var w))).
Proof.
  intros Hq Hi Hg. split; [|split].
  - destruct (strip v) as [|x s] eqn:Hv.
    + now apply (edit_var_keep w k v cur r).
    + apply (edit_var_overwrite w k v cur r); auto. congruence.
  - intros Hv. destruct (edit_var_keep w k v cur r) as (_ & H & _); auto.
    now rewrite H.
  - intros Hv.
    destruct (edit_var_overwrite w k v cur r) as (_ & H & H'); auto.
    rewrite H. repeat split; try apply H'. apply dict_get_set.
Qed.

Lemma edit_var_keeps_or_overwrites_witness :
  dict_get (lit "FOO")
    (env_vars (snd (edit_var (store foo_bar (Some four_lines)
                                [Line (lit "FOO"); Line []]))))
  = Some (lit "bar").
Proof.
  apply (edit_var_keeps_or_overwrites
           (store foo_bar (Some four_lines) [Line (lit "FOO"); Line []])
           (lit "FOO") [] (lit "bar") []); reflexivity.
Defined.

(** C6.  For a key that is present, [delete_var] returns.  When the reply to
    the confirmation (trimmed as every reply is) lower-cased is y, as it is
    for y and for Y, the key is removed, is no longer in the mapping, and the
    file holds the new mapping; on any other reply mapping and file are
    untouched and "Deletion cancelled." is printed.  So the key goes exactly
    when the reply is y up to case. *)
Theorem delete_var_needs_yes (lw : str -> str) (w : World) (k c : str)
        (r : list event) :
  sigint_tripped w = false ->
  stdin w = Line k :: Line c :: r ->
  dict_mem (strip k) (env_vars w) = true ->
  distinct (keys (env_vars w)) = true ->
  fst (delete_var lw w) = Ok tt
  /\ (lower lw (strip c) = lit "y" ->
      env_vars (snd (delete_var lw w)) = dict_del (strip k) (env_vars w)
      /\ saved w (snd (delete_var lw w)))
  /\ (lower lw (strip c) <> lit "y" ->
      refused (delete_var lw) w (lit "Deletion cancelled."))
  /\ (dict_mem (strip k) (env_vars (snd (delete_var lw w))) = false
      <-> lower lw (strip c) = lit "y")
  /\ lower lw (lit "y") = lit "y" /\ lower lw (lit "Y") = lit "y".
Proof.
  intros Hq Hi Hm Hd.
  assert (Yes : lower lw (strip c) = lit "y" ->
                fst (delete_var lw w) = Ok tt
                /\ env_vars (snd (delete_var lw w)) = dict_del (strip k) (env_vars w)
                /\ saved w (snd (delete_var lw w)))
    by (intros Hy; now apply (delete_var_confirm lw w k c r)).
  assert (No : lower lw (strip c) <> lit "y" ->
               refused (delete_var lw) w (lit "Deletion cancelled."))
    by (intros Hn; now apply (delete_var_cancel lw w k c r)).
  assert (Dec : lower lw (strip c) = lit "y" \/ lower lw (strip c) <> lit "y").
  { destruct (str_eqb (lower lw (strip c)) (lit "y")) eqn:E.
    - left. now apply str_eqb_eq.
    - right. now apply str_eqb_neq. }
  split; [|split; [|split; [|split; [|split]]]]; try reflexivity.
  - destruct Dec as [Hy|Hn]; [apply (Yes Hy)|apply (No Hn)].
  - intros Hy. apply (Yes Hy).
  - exact No.
  - split.
    + intros H. destruct Dec as [Hy|Hn]; [exact Hy|].
      destruct (No Hn) as (_ & (He & _) & _). rewrite He in H. congruence.
    + intros Hy. destruct (Yes Hy) as (_ & -> & _). now apply dict_mem_del.
Qed.

Lemma delete_var_needs_yes_witness :
  refused (delete_var lower_id)
          (store foo_bar (Some four_lines) [Line (lit "FOO"); Line (lit "n")])
          (lit "Deletion cancelled.")
  /\ env_vars (snd (delete_var lower_id
                      (store foo_bar (Some four_lines)
                         [Line (lit "FOO"); Line (lit "Y")]))) = []
  /\ disk (snd (delete_var lower_id
                  (store foo_bar (Some four_lines)
                     [Line (lit "FOO"); Line (lit "Y")]))) = Some [].
Proof.
  split.
  - apply (delete_var_needs_yes lower_id
             (store foo_bar (Some four_lines) [Line (lit "FOO"); Line (lit "n")])
             (lit "FOO") (lit "n") []); try reflexivity.
    vm_compute. discriminate.
  - pose proof (delete_var_needs_yes lower_id
                  (store foo_bar (Some four_lines)
                     [Line (lit "FOO"); Line (lit "Y")])
                  (lit "FOO") (lit "Y") [] eq_refl eq_refl eq_refl eq_refl)
      as (_ & H & _).
    destruct (H eq_refl) as (H1 & H2 & _).
    split; [exact H1|]. rewrite H2, H1. reflexivity.
Defined.

(** C7.  With no file at the path, [load_env_vars] and the constructor
    return without an exception, the mapping is empty, and there is still no
    file, which has not been opened for writing; the first
    [save_env_vars] creates it. *)
Theorem load_without_file (w : World) (path : str) :
  sigint_tripped w = false ->
  disk w = None ->
  load_env_vars w
  = (Ok tt, set_stdout (stdout w ++ [(lit "Creating new env file: "
                                       ++ env_file w) ++ [NL]])
              (set_env_vars [] w))
  /\ fst (EnvManager_init path w) = Ok tt
  /\ env_vars (snd (EnvManager_init path w)) = []
  /\ disk (snd (EnvManager_init path w)) = None
  /\ writes (snd (EnvManager_init path w)) = writes w
  /\ disk (snd (save_env_vars (snd (EnvManager_init path w)))) = Some [].
Proof.
  intros Hq Hd. split; [now apply load_env_vars_absent|].
  destruct (EnvManager_init_quiet path w Hq) as (H1 & H2 & H3 & H4 & _ & H5 & _).
  rewrite Hd in H2, H3. repeat split; auto.
  rewrite save_env_vars_quiet by exact H5. rewrite H2.
  destruct (snd (EnvManager_init path w)). reflexivity.
Qed.

Lemma load_without_file_witness :
  env_vars (snd (EnvManager_init (lit "nowhere")
                   (start (lit "nowhere") None []))) = []
  /\ disk (snd (EnvManager_init (lit "nowhere")
                  (start (lit "nowhere") None []))) = None.
Proof.
  pose proof (load_without_file (start (lit "nowhere") None [])
                (lit "nowhere") eq_refl eq_refl) as (_ & _ & H1 & H2 & _).
  split; [exact H1|exact H2].
Defined.

(** C8, as amended.  Once the constructor has installed the handler, a
    Ctrl-C ends the process with the cancellation notice and exit code 0 at
    whatever point it arrives.

    A signal under way reaches a menu turn at one of the points where
    signals are checked (before a line is printed, a reply read, the file
    opened or written, the completer renewed), or is nearer when the turn is
    over; one that is pending when the turn starts ends it at once.  The
    turn it reaches ends in [sys.exit(0)] with the notice printed last, and
    with it the loop.  An operation that is still short of a reply (the
    turn, run without the signal on the replies typed so far, comes to ask
    for more) is abandoned with nothing persisted, wherever the signal
    arrives: mapping, file and count of rewrites are those of the start of
    the turn.

    A Ctrl-C typed at a prompt ([pre] are the replies given in the turn so
    far, after which the turn asks for more) does the same, and what was
    typed after it is left unread.

    So does [main] as a whole, for a signal that arrives after the third
    check of the process, when the handler is certainly installed. *)
Theorem interrupt_once_constructed (lw : str -> str) (w : World) :
  sigint_handler w = true ->
  (sigint_tripped w = true ->
   ((sigint_tripped (snd (menu_turn lw w)) = true
     /\ sigint_delay (snd (menu_turn lw w)) < sigint_delay w)
    \/ (sigint_tripped (snd (menu_turn lw w)) = false
        /\ fst (menu_turn lw w) = Raise (SystemExit 0)
        /\ last (stdout (snd (menu_turn lw w))) [] = cancel_notice
        /\ forall fuel,
             main_loop lw (S fuel) w
             = Some (Raise (SystemExit 0), snd (menu_turn lw w))))
   /\ (sigint_delay w = 0 ->
       menu_turn lw w
       = (Raise (SystemExit 0),
          set_stdout (stdout w ++ [cancel_notice])
            (set_sigint_tripped false w)))
   /\ (fst (menu_turn lw (set_sigint_tripped false w)) = Raise EOFError ->
       untouched w (snd (menu_turn lw w)))
   /\ (forall fuel,
         List.length (stdin w) < fuel ->
         exists r w',
           main_loop lw fuel w = Some (r, w')
           /\ (sigint_tripped w' = false ->
               r = Raise (SystemExit 0)
               /\ last (stdout w') [] = cancel_notice)))
  /\ (forall pre rest,
        sigint_tripped w = false ->
        stdin w = map Line pre ++ Interrupt :: rest ->
        fst (menu_turn lw (set_stdin (map Line pre) w)) = Raise EOFError ->
        fst (menu_turn lw w) = Raise (SystemExit 0)
        /\ (forall fuel,
              main_loop lw (S fuel) w
              = Some (Raise (SystemExit 0), snd (menu_turn lw w)))
        /\ untouched w (snd (menu_turn lw w))
        /\ last (stdout (snd (menu_turn lw w))) [] = cancel_notice
        /\ stdin (snd (menu_turn lw w)) = rest)
  /\ (forall path fuel w0,
        sigint_tripped w0 = true ->
        3 <= sigint_delay w0 ->
        List.length (stdin w0) < fuel ->
        exists r w',
          main lw path fuel w0 = Some (r, w')
          /\ (sigint_tripped w' = false ->
              r = Raise (SystemExit 0)
              /\ last (stdout w') [] = cancel_notice
              /\ ending_of r = Exit 0))
  /\ ending_of (Raise (SystemExit 0)) = Exit 0.
Proof.
  intros Hh.
  assert (Loop : forall w1, fst (menu_turn lw w) = Raise (SystemExit 0) ->
                 snd (menu_turn lw w) = w1 ->
                 forall fuel,
                   main_loop lw (S fuel) w = Some (Raise (SystemExit 0), w1)).
  { intros w1 H1 H2 fuel. cbn [main_loop].
    destruct (menu_turn lw w) as [r w2]. cbn [fst snd] in *. now subst. }
  split; [|split; [|split; [|reflexivity]]].
  - intros Ht. split; [|split; [|split]].
    + destruct (signal_in_turn lw w Hh Ht) as [H|(H1 & H2 & H3)];
        [now left|right]. auto.
    + intros Hd. now apply signal_pending.
    + now apply signal_mid_input.
    + intros fuel Hl.
      destruct (signal_in_loop lw fuel w Hh Hl) as (r & w' & R1 & R2).
      exists r, w'. auto.
  - intros pre rest Hq Hi He.
    destruct (interrupt_in_turn lw w pre rest Hh Hq Hi He)
      as (H1 & H2 & H3 & H4).
    auto 6.
  - intros path fuel w0 Ht Hd Hl.
    destruct (signal_in_main lw path fuel w0 Ht Hd Hl) as (r & w' & R1 & R2).
    exists r, w'. split; [exact R1|]. intros T.
    destruct (R2 T) as [-> R3]. auto.
Qed.

Lemma interrupt_once_constructed_witness :
  fst (menu_turn lower_id interrupted_mid_input) = Raise (SystemExit 0)
  /\ untouched interrupted_mid_input (snd (menu_turn lower_id interrupted_mid_input))
  /\ fst (menu_turn lower_id
            (store foo_bar (Some four_lines)
               [Line (lit "4"); Line (lit "FOO"); Interrupt; Line (lit "y")]))
     = Raise (SystemExit 0)
  /\ untouched
       (store foo_bar (Some four_lines)
          [Line (lit "4"); Line (lit "FOO"); Interrupt; Line (lit "y")])
       (snd (menu_turn lower_id
               (store foo_bar (Some four_lines)
                  [Line (lit "4"); Line (lit "FOO"); Interrupt; Line (lit "y")]))).
Proof.
  pose proof (interrupt_once_constructed lower_id interrupted_mid_input eq_refl)
    as (A & _).
  destruct (A eq_refl) as (A1 & _ & A3 & _).
  pose proof (interrupt_once_constructed lower_id
                (store foo_bar (Some four_lines)
                   [Line (lit "4"); Line (lit "FOO"); Interrupt; Line (lit "y")])
                eq_refl) as (_ & B & _).
  destruct (B [lit "4"; lit "FOO"] [Line (lit "y")] eq_refl eq_refl eq_refl)
    as (B1 & _ & B2 & _).
  split; [|split; [apply A3; reflexivity|split; [exact B1|exact B2]]].
  destruct A1 as [[T _]|(_ & T & _)]; [discriminate T|exact T].
Defined.

(** C8, as stated, fails: a SIGINT that arrives while the process starts is
    handled before [signal.signal] has installed [handle_interrupt]; the
    default handler raises KeyboardInterrupt inside the constructor, outside
    the [try] of [main]: nothing is printed and the process does not end
    with exit code 0. *)
Lemma interrupt_before_handler_installed :
  option_map (fun r => (ending_of (fst r), stdout (snd r), sigint_handler (snd r)))
             (main lower_id (lit ".env.example") 1
                (start_interrupted (lit ".env.example") (Some four_lines)))
  = Some (Uncaught KeyboardInterrupt, [], false).
Proof. vm_compute. reflexivity. Qed.

(** A signal that arrives while a confirmed change is being saved ends the
    process in the same way; the file then holds the entries that were
    written before it arrived. *)
Lemma interrupt_while_saving :
  fst (menu_turn lower_id interrupted_while_saving) = Raise (SystemExit 0)
  /\ last (stdout (snd (menu_turn lower_id interrupted_while_saving))) []
     = cancel_notice
  /\ env_vars (snd (menu_turn lower_id interrupted_while_saving))
     = [(lit "FOO", lit "bar"); (lit "K", lit "v")]
  /\ disk (snd (menu_turn lower_id interrupted_while_saving))
     = Some (lit "FOO=bar" ++ [NL]).
Proof. vm_compute. auto. Qed.

(** C9.  In every world the program can reach, each key and each value of
    the mapping is trimmed: neither its first nor its last character is
    whitespace. *)
Theorem stored_text_is_trimmed (lw : str -> str) (w : World) :
  reachable lw w -> all_trimmed (env_vars w) = true.
Proof.
  induction 1 as [path w|w _ IH|w _ IH|w _ IH|w _ IH].
  - destruct (EnvManager_init_mapping path w) as [->|(c & ->)];
      [reflexivity|apply load_lines_shape].
  - now rewrite list_vars_mapping.
  - destruct (add_var_mapping w) as [->|(k & v & ->)]; [exact IH|].
    apply all_trimmed_dict_set; auto using strip_trimmed.
  - destruct (edit_var_mapping w) as [->|(k & v & ->)]; [exact IH|].
    apply all_trimmed_dict_set; auto using strip_trimmed.
  - destruct (delete_var_mapping lw w) as [->|(k & ->)]; [exact IH|].
    now apply all_trimmed_dict_del.
Qed.

Lemma stored_text_is_trimmed_witness :
  all_trimmed (env_vars padded_session) = true.
Proof.
  apply (stored_text_is_trimmed lower_id).
  unfold padded_session, session. apply reach_edit, reach_add, reach_init.
Defined.

(** C10.  [add_var] takes an empty value: a new key whose value reply is
    empty or whitespace is stored, last, with the value "".  [edit_var]
    never makes a value empty: a reply that is empty or whitespace leaves
    the mapping as it was, and the value is "" after an edit only if it was
    "" before. *)
Theorem empty_value_on_add_not_on_edit (w : World) (k v : str)
        (r : list event) :
  sigint_tripped w = false ->
  stdin w = Line k :: Line v :: r ->
  (strip k <> [] -> dict_mem (strip k) (env_vars w) = false ->
   strip v = [] ->
   fst (add_var w) = Ok tt
   /\ env_vars (snd (add_var w)) = env_vars w ++ [(strip k, [])])
  /\ (forall cur, dict_get (strip k) (env_vars w) = Some cur ->
      fst (edit_var w) = Ok tt
      /\ (strip v = [] -> env_vars (snd (edit_var w)) = env_vars w)
      /\ (dict_get (strip k) (env_vars (snd (edit_var w))) = Some [] ->
          cur = [])).
Proof.
  intros Hq Hi. split.
  - intros Hk Hm Hv.
    destruct (add_var_new w k v r) as (H1 & H2 & _); auto.
    split; [exact H1|]. rewrite H2, Hv. now apply dict_set_absent.
  - intros cur Hg. destruct (strip v) as [|x s] eqn:Hv.
    + destruct (edit_var_keep w k v cur r) as (H1 & H2 & _); auto.
      split; [exact H1|]. split; [auto|]. rewrite H2. congruence.
    + destruct (edit_var_overwrite w k v cur r) as (H1 & H2 & _); auto;
        [congruence|].
      split; [exact H1|]. split; [discriminate|].
      rewrite H2, dict_get_set, Hv. discriminate.
Qed.

Lemma empty_value_on_add_not_on_edit_witness :
  env_vars (snd (add_var (store foo_bar (Some four_lines)
                            [Line (lit "NEW"); Line (lit "   ")])))
  = [(lit "FOO", lit "bar"); (lit "NEW", [])]
  /\ env_vars (snd (edit_var (store foo_bar (Some four_lines)
                               [Line (lit "FOO"); Line (lit "   ")])))
     = foo_bar.
Proof.
  split.
  - pose proof (empty_value_on_add_not_on_edit
                  (store foo_bar (Some four_lines)
                     [Line (lit "NEW"); Line (lit "   ")])
                  (lit "NEW") (lit "   ") [] eq_refl eq_refl) as (H & _).
    apply H; [vm_compute; discriminate | reflexivity | reflexivity].
  - pose proof (empty_value_on_add_not_on_edit
                  (store foo_bar (Some four_lines)
                     [Line (lit "FOO"); Line (lit "   ")])
                  (lit "FOO") (lit "   ") [] eq_refl eq_refl) as (_ & H).
    destruct (H (lit "bar") eq_refl) as (_ & H' & _).
    apply H'. reflexivity.
Defined.

(** * Further properties *)

(** ** What a file can give *)

Lemma load_line_parse (l : str) (d : dict) :
  load_line l d = match parse_line l with
                  | Some kv => dict_set (fst kv) (snd kv) d
                  | None => d
                  end.
Proof.
  unfold load_line, parse_line. cbv zeta.
  destruct (truthy (strip l) && negb (startswith HASH (strip l))); [|reflexivity].
  destruct (split1 EQ (strip l)) as [|a [|b [|c r]]]; reflexivity.
Qed.

Lemma load_lines_assignments (ls : list str) :
  load_lines ls
  = fold_left (fun d kv => dict_set (fst kv) (snd kv) d) (assignments ls) [].
Proof.
  unfold load_lines.
  assert (G : forall d,
            fold_left (fun d l => load_line l d) ls d
            = fold_left (fun d kv => dict_set (fst kv) (snd kv) d)
                        (assignments ls) d).
  { induction ls as [|l ls IH]; intros d; [reflexivity|].
    unfold assignments. cbn [fold_left flat_map]. fold (assignments ls).
    rewrite fold_left_app, IH, load_line_parse.
    destruct (parse_line l); reflexivity. }
  apply G.
Qed.

Lemma forallb_strip (P : char -> bool) (s : str) :
  forallb P s = true -> forallb P (strip s) = true.
Proof.
  destruct (strip_decompose s) as (ws1 & ws2 & _ & _ & Hs).
  intros H. rewrite Hs, !forallb_app in H.
  apply andb_true_iff in H as [_ H]. now apply andb_true_iff in H as [H _].
Qed.

Lemma forallb_before (P : char -> bool) (c : char) (s : str) :
  forallb P s = true -> forallb P (before c s) = true.
Proof.
  induction s as [|x s IH]; [reflexivity|]. cbn [forallb before].
  intros H. apply andb_true_iff in H as [Hx Hs].
  destruct (N.eqb x c); [reflexivity|]. cbn [forallb]. now rewrite Hx, IH.
Qed.

Lemma forallb_after (P : char -> bool) (c : char) (s : str) :
  forallb P s = true -> forallb P (after c s) = true.
Proof.
  induction s as [|x s IH]; [reflexivity|]. cbn [forallb after].
  intros H. apply andb_true_iff in H as [Hx Hs].
  destruct (N.eqb x c); auto.
Qed.

Lemma contains_forallb (c : char) (s : str) :
  contains c s = false <-> forallb (fun x => negb (N.eqb c x)) s = true.
Proof.
  unfold contains. induction s as [|x s IH]; cbn [existsb forallb]; [tauto|].
  rewrite orb_false_iff, andb_true_iff, negb_true_iff. tauto.
Qed.

Lemma contains_before (c : char) (s : str) : contains c (before c s) = false.
Proof.
  induction s as [|x s IH]; [reflexivity|]. cbn [before].
  destruct (N.eqb x c) eqn:E; [reflexivity|].
  cbn [contains existsb]. fold (contains c (before c s)).
  now rewrite IH, N.eqb_sym, E.
Qed.

Lemma universal_newlines_no_CR (s : str) :
  forallb (fun c => negb (N.eqb c CR)) (universal_newlines s) = true.
Proof.
  assert (G : forall n s, List.length s <= n ->
              forallb (fun c => negb (N.eqb c CR)) (universal_newlines s) = true).
  { clear s. induction n as [|n IH]; intros [|c s] Hl; try reflexivity;
      cbn [List.length] in Hl; [lia|].
    cbn [universal_newlines]. destruct (N.eqb c CR) eqn:E.
    - destruct s as [|c' s]; [reflexivity|].
      destruct (N.eqb c' NL); cbn [forallb]; rewrite IH;
        cbn [List.length] in *; try reflexivity; lia.
    - cbn [forallb]. rewrite E, IH; [reflexivity|lia]. }
  now apply (G (List.length s)).
Qed.

(** Each line a file yields is text without line break, followed or not by
    the newline. *)
Lemma lines_from_shape (s cur : str) :
  forallb (fun c => negb (N.eqb c CR)) s = true ->
  one_line (rev cur) = true ->
  Forall (fun l => exists body, one_line body = true
                                /\ (l = body \/ l = body ++ [NL]))
         (lines_from cur s).
Proof.
  revert cur. induction s as [|c s IH]; intros cur Hs Hcur; cbn [lines_from].
  - destruct cur; constructor; [|constructor]. exists (rev (c :: cur)). auto.
  - cbn [forallb] in Hs. apply andb_true_iff in Hs as [Hc Hs].
    destruct (N.eqb c NL) eqn:E.
    + constructor; [|apply IH; auto].
      exists (rev cur). split; [exact Hcur|]. right. cbn [rev].
      apply N.eqb_eq in E. now subst.
    + apply IH; [exact Hs|]. cbn [rev]. unfold one_line in *.
      rewrite forallb_app. apply andb_true_iff. split; [exact Hcur|].
      cbn [forallb]. now rewrite E, Hc.
Qed.

Lemma file_lines_shape (c : str) :
  Forall (fun l => exists body, one_line body = true
                                /\ (l = body \/ l = body ++ [NL]))
         (file_lines c).
Proof.
  apply lines_from_shape; [apply universal_newlines_no_CR|reflexivity].
Qed.

Lemma one_line_strip_line (l body : str) :
  one_line body = true -> l = body \/ l = body ++ [NL] ->
  one_line (strip l) = true.
Proof.
  intros Hb [->| ->]; [|rewrite strip_blank_app_r by reflexivity];
    now apply forallb_strip.
Qed.

(** What a line assigns is fit for the file: key and value are trimmed and
    without line break, the key has no '=' and no '#' in front. *)
Lemma parse_line_fit (l : str) (k v : str) :
  one_line (strip l) = true ->
  parse_line l = Some (k, v) ->
  trimmed k && trimmed v && one_line k && one_line v && plain_key k = true.
Proof.
  unfold parse_line. cbv zeta. intros Hl.
  destruct (truthy (strip l)) eqn:T; [|discriminate].
  destruct (startswith HASH (strip l)) eqn:S; [discriminate|]. cbn [negb andb].
  rewrite split1_spec. destruct (contains EQ (strip l)) eqn:C; [|discriminate].
  intros H. inversion H; subst k v; clear H.
  rewrite !strip_trimmed. cbn [andb].
  assert (K : one_line (strip (before EQ (strip l))) = true)
    by now apply forallb_strip, forallb_before.
  assert (V : one_line (strip (after EQ (strip l))) = true)
    by now apply forallb_strip, forallb_after.
  rewrite K, V. cbn [andb]. unfold plain_key. apply andb_true_iff. split.
  - apply negb_true_iff, contains_forallb, forallb_strip, contains_forallb.
    apply contains_before.
  - apply negb_true_iff.
    pose proof (strip_trimmed l) as Ht. unfold trimmed in Ht.
    apply andb_true_iff in Ht as [Ht _]. apply negb_true_iff in Ht.
    destruct (strip l) as [|x t]; [discriminate|]. cbn [hd] in Ht.
    cbn [startswith] in S. cbn [before].
    destruct (N.eqb x EQ); [reflexivity|].
    unfold strip. cbn [lstrip]. rewrite Ht, rstrip_cons.
    destruct (rstrip (before EQ t)); [rewrite Ht|]; exact S.
Qed.

Lemma assignments_fit (c : str) :
  forallb (fun kv => trimmed (fst kv) && trimmed (snd kv)
                     && one_line (fst kv) && one_line (snd kv)
                     && plain_key (fst kv)) (assignments (file_lines c)) = true.
Proof.
  unfold assignments. pose proof (file_lines_shape c) as H.
  induction H as [|l ls (body & Hb & Hl) _ IH]; [reflexivity|].
  cbn [flat_map]. rewrite forallb_app, IH, andb_true_r.
  destruct (parse_line l) as [[k v]|] eqn:E; [|reflexivity].
  cbn [forallb fst snd]. rewrite andb_true_r.
  eapply parse_line_fit; [|exact E]. eapply one_line_strip_line; eauto.
Qed.

Lemma dict_set_cons (k v k' v' : str) (d : dict) :
  dict_set k v ((k', v') :: d)
  = if str_eqb k k' then (k', v) :: d else (k', v') :: dict_set k v d.
Proof. reflexivity. Qed.

Lemma dict_get_cons (k k' v' : str) (d : dict) :
  dict_get k ((k', v') :: d) = if str_eqb k k' then Some v' else dict_get k d.
Proof. reflexivity. Qed.

Lemma dict_del_cons (k k' v' : str) (d : dict) :
  dict_del k ((k', v') :: d)
  = if str_eqb k k' then d else (k', v') :: dict_del k d.
Proof. reflexivity. Qed.

Lemma forallb_dict_set (Q : str * str -> bool) (k v : str) (d : dict) :
  Q (k, v) = true -> forallb Q d = true -> forallb Q (dict_set k v d) = true.
Proof.
  intros Hq. induction d as [|[k' v'] d IH].
  - intros _. change (dict_set k v []) with [(k, v)]. cbn [forallb].
    now rewrite Hq.
  - rewrite dict_set_cons. cbn [forallb].
    intros H. apply andb_true_iff in H as [H1 H2].
    destruct (str_eqb k k') eqn:E; cbn [forallb].
    + apply str_eqb_eq in E. subst k'. now rewrite Hq, H2.
    + now rewrite H1, IH.
Qed.

Lemma load_lines_storable (c : str) :
  storable (load_lines (file_lines c)) = true.
Proof.
  unfold storable. apply andb_true_iff. split; [apply load_lines_shape|].
  rewrite load_lines_assignments. pose proof (assignments_fit c) as H.
  revert H. generalize (assignments (file_lines c)).
  assert (G : forall es d Q, forallb Q d = true -> forallb Q es = true ->
              forallb Q (fold_left (fun d kv => dict_set (fst kv) (snd kv) d)
                                   es d) = true).
  { induction es as [|[k v] es IH]; intros d Q Hd He; [exact Hd|].
    cbn [forallb] in He. apply andb_true_iff in He as [H1 H2].
    cbn [fold_left fst snd]. apply IH; [|exact H2].
    now apply forallb_dict_set. }
  intros es He. now apply G.
Qed.

(** Saved and read again, such a mapping is itself. *)
Lemma reload_serialized (d : dict) :
  storable d = true -> load_lines (file_lines (serialize d)) = d.
Proof.
  intros H. rewrite file_lines_serialize by now apply storable_one_line.
  now apply load_lines_serialize.
Qed.

Lemma dict_get_set_other (k k' v : str) (d : dict) :
  str_eqb k k' = false -> dict_get k (dict_set k' v d) = dict_get k d.
Proof.
  intros Hk. induction d as [|[k0 v0] d IH].
  - change (dict_set k' v []) with [(k', v)]. rewrite dict_get_cons. now rewrite Hk.
  - rewrite dict_set_cons, !dict_get_cons.
    destruct (str_eqb k' k0) eqn:E; rewrite !dict_get_cons.
    + apply str_eqb_eq in E. subst k0. now rewrite Hk.
    + now rewrite IH.
Qed.

Lemma dict_get_app (k : str) (a b : dict) :
  dict_get k (a ++ b)
  = match dict_get k a with Some v => Some v | None => dict_get k b end.
Proof.
  induction a as [|[k0 v0] a IH]; [reflexivity|].
  rewrite <- app_comm_cons, !dict_get_cons. now destruct (str_eqb k k0).
Qed.

(** Assignments made one after the other: the last one to a key is the one
    that is found. *)
Lemma dict_get_assigned (k : str) (es d : dict) :
  dict_get k (fold_left (fun d kv => dict_set (fst kv) (snd kv) d) es d)
  = match dict_get k (rev es) with
    | Some v => Some v
    | None => dict_get k d
    end.
Proof.
  revert d. induction es as [|[k0 v0] es IH]; intros d; [reflexivity|].
  cbn [fold_left rev fst snd]. rewrite IH, dict_get_app.
  destruct (dict_get k (rev es)); [reflexivity|].
  change (dict_get k [(k0, v0)]) with (if str_eqb k k0 then Some v0 else None).
  destruct (str_eqb k k0) eqn:E.
  - apply str_eqb_eq in E. subst k0. apply dict_get_set.
  - now apply dict_get_set_other.
Qed.

Lemma loaded_mapping_storable_aux (path : str) (w : World) :
  storable (env_vars (snd (EnvManager_init path w))) = true.
Proof.
  destruct (EnvManager_init_mapping path w) as [->|(c & ->)];
    [reflexivity|apply load_lines_storable].
Qed.

(** X1.  Whatever the file holds, and in whatever state the program is, the
    mapping that [load_env_vars] or the constructor leaves has distinct keys,
    its keys and values are trimmed and without line break, and no key
    contains '=' or starts with '#'. *)
Theorem loaded_mapping_is_storable (w : World) (path : str) :
  storable (env_vars (snd (load_env_vars w))) = true
  /\ storable (env_vars (snd (EnvManager_init path w))) = true.
Proof.
  split.
  - destruct (load_env_vars_mapping w) as [->|(c & ->)];
      [reflexivity|apply load_lines_storable].
  - apply loaded_mapping_storable_aux.
Qed.

(** X2.  A file that the program has loaded and rewritten is stable: a new
    store built on the rewritten file holds the same mapping, and saving
    from it writes the same text again. *)
Theorem rewritten_file_is_stable (w : World) (path : str) :
  sigint_tripped w = false ->
  env_vars (snd (EnvManager_init path
                   (snd (save_env_vars (snd (EnvManager_init path w))))))
  = env_vars (snd (EnvManager_init path w))
  /\ disk (snd (save_env_vars
                  (snd (EnvManager_init path
                          (snd (save_env_vars (snd (EnvManager_init path w))))))))
     = disk (snd (save_env_vars (snd (EnvManager_init path w)))).
Proof.
  intros Hq.
  destruct (EnvManager_init_quiet path w Hq) as (_ & _ & _ & _ & _ & Hq1 & _).
  pose proof (loaded_mapping_storable_aux path w) as Hs.
  set (w1 := snd (EnvManager_init path w)) in *.
  rewrite (save_env_vars_quiet w1 Hq1). cbn [snd].
  set (w2 := set_writes _ _).
  assert (Hq2 : sigint_tripped w2 = false) by (destruct w1; exact Hq1).
  assert (Hd2 : disk w2 = Some (serialize (env_vars w1))) by now destruct w1.
  destruct (EnvManager_init_quiet path w2 Hq2) as (_ & He & _ & _ & _ & Hq3 & _).
  rewrite Hd2, reload_serialized in He by exact Hs.
  split; [exact He|].
  rewrite (save_env_vars_quiet _ Hq3), He.
  destruct (snd (EnvManager_init path w2)). rewrite Hd2. reflexivity.
Qed.

Lemma rewritten_file_is_stable_witness :
  env_vars (snd (EnvManager_init (lit "f")
                   (snd (save_env_vars
                           (snd (EnvManager_init (lit "f")
                                   (start (lit "f") (Some four_lines) [])))))))
  = foo_bar.
Proof.
  pose proof (rewritten_file_is_stable
                (start (lit "f") (Some four_lines) []) (lit "f") eq_refl)
    as (H & _).
  rewrite H. reflexivity.
Defined.

(** X3.  After a load, a key has the value of the last line of the file that
    assigns to it, and is absent when no line does. *)
Theorem load_lookup_last_wins (w : World) (c k : str) :
  sigint_tripped w = false ->
  disk w = Some c ->
  dict_get k (env_vars (snd (load_env_vars w)))
  = dict_get k (rev (assignments (file_lines c))).
Proof.
  intros Hq Hc. rewrite (load_env_vars_file w c Hq Hc).
  replace (env_vars (snd (Ok tt, set_env_vars (load_lines (file_lines c)) w)))
    with (load_lines (file_lines c)) by now destruct w.
  rewrite load_lines_assignments, dict_get_assigned.
  now destruct (dict_get k (rev (assignments (file_lines c)))).
Qed.

Lemma load_lookup_last_wins_witness :
  dict_get (lit "A")
    (env_vars (snd (load_env_vars
                      (start (lit "f")
                         (Some (lit "A=1" ++ [NL] ++ lit "B=2" ++ [NL]
                                ++ lit " A = 3 " ++ [NL])) []))))
  = Some (lit "3").
Proof.
  rewrite (load_lookup_last_wins
             (start (lit "f")
                (Some (lit "A=1" ++ [NL] ++ lit "B=2" ++ [NL]
                       ++ lit " A = 3 " ++ [NL])) [])
             (lit "A=1" ++ [NL] ++ lit "B=2" ++ [NL] ++ lit " A = 3 " ++ [NL])
             (lit "A") eq_refl eq_refl).
  vm_compute. reflexivity.
Defined.

(** ** The order of the listing *)

Lemma str_ltb_asym (a b : str) : str_ltb a b = true -> str_ltb b a = false.
Proof.
  revert b. induction a as [|x a IH]; intros [|y b]; cbn [str_ltb];
    try reflexivity; try discriminate.
  intros H. apply orb_true_iff in H as [H|H].
  - apply N.ltb_lt in H. apply orb_false_iff. split.
    + apply N.ltb_ge. lia.
    + apply andb_false_iff. left. apply N.eqb_neq. lia.
  - apply andb_true_iff in H as [E H]. apply N.eqb_eq in E. subst y.
    rewrite N.ltb_irrefl, N.eqb_refl. cbn [orb andb]. now apply IH.
Qed.

Lemma str_ltb_total (a b : str) :
  str_ltb a b = false -> str_ltb b a = false -> a = b.
Proof.
  revert b. induction a as [|x a IH]; intros [|y b]; cbn [str_ltb];
    try reflexivity; try discriminate.
  intros H1 H2. apply orb_false_iff in H1 as [L1 E1], H2 as [L2 E2].
  apply N.ltb_ge in L1, L2. assert (x = y) by lia. subst y.
  rewrite N.eqb_refl in E1, E2. cbn [andb] in E1, E2. f_equal. now apply IH.
Qed.

Lemma item_ltb_asym (a b : str * str) :
  item_ltb a b = true -> item_ltb b a = false.
Proof.
  unfold item_ltb. intros H. apply orb_true_iff in H as [H|H].
  - rewrite (str_ltb_asym _ _ H). cbn [orb]. apply andb_false_iff. left.
    apply str_eqb_neq. intros E. rewrite E in H.
    pose proof (str_ltb_asym _ _ H). congruence.
  - apply andb_true_iff in H as [E H]. apply str_eqb_eq in E. rewrite E.
    rewrite str_eqb_refl, (str_ltb_asym _ _ H). cbn [andb].
    destruct (str_ltb (fst b) (fst b)) eqn:L; [|reflexivity].
    pose proof (str_ltb_asym _ _ L). congruence.
Qed.




Lemma insert_sorted_perm (x : str * str) (l : dict) :
  Permutation (insert_sorted x l) (x :: l).
Proof.
  induction l as [|y l IH]; cbn [insert_sorted]; [reflexivity|].
  destruct (item_ltb x y); [reflexivity|].
  rewrite IH. apply perm_swap.
Qed.

Lemma insert_sorted_sorted (x : str * str) (l : dict) :
  Sorted in_order l -> Sorted in_order (insert_sorted x l).
Proof.
  induction l as [|y l IH]; cbn [insert_sorted]; intros H.
  - repeat constructor.
  - destruct (item_ltb x y) eqn:E.
    + constructor; [exact H|]. constructor. now apply item_ltb_asym.
    + inversion H as [|? ? Hs Hh]; subst. constructor; [now apply IH|].
      destruct l as [|z l]; cbn [insert_sorted].
      * constructor. exact E.
      * destruct (item_ltb x z); constructor; [exact E|].
        now inversion Hh.
Qed.

Lemma sorted_spec (d : dict) :
  Permutation (sorted d) d /\ Sorted in_order (sorted d).
Proof.
  unfold sorted.
  assert (G : forall acc,
            Sorted in_order acc ->
            Permutation (fold_left (fun acc x => insert_sorted x acc) d acc)
                        (acc ++ d)
            /\ Sorted in_order
                 (fold_left (fun acc x => insert_sorted x acc) d acc)).
  { induction d as [|x d IH]; intros acc Ha; cbn [fold_left].
    - rewrite app_nil_r. auto.
    - destruct (IH (insert_sorted x acc) (insert_sorted_sorted x acc Ha))
        as [P S].
      split; [|exact S]. rewrite P, insert_sorted_perm.
      apply Permutation_middle. }
  destruct (G [] (Sorted_nil _)) as [P S]. auto.
Qed.

Lemma sorted_by_key (d : dict) :
  distinct (keys d) = true ->
  Sorted (fun a b => str_ltb (fst a) (fst b) = true) (sorted d).
Proof.
  intros Hd. destruct (sorted_spec d) as [P S].
  assert (N : NoDup (keys (sorted d))).
  { apply distinct_NoDup in Hd. unfold keys.
    eapply Permutation_NoDup; [|exact Hd].
    apply Permutation_map. now symmetry. }
  clear P Hd. induction S as [|a l S IH Hh]; [constructor|].
  unfold keys in N. cbn [map] in N. inversion N as [|? ? Hn N']; subst.
  constructor; [now apply IH|].
  destruct Hh as [|b l Hab]; constructor.
  unfold in_order, item_ltb in Hab. apply orb_false_iff in Hab as [L _].
  destruct (str_ltb (fst a) (fst b)) eqn:L'; [reflexivity|].
  exfalso. apply Hn. left. symmetry. now apply str_ltb_total.
Qed.

(** ** [list_vars] *)

(** X4.  [list_vars] only prints: in whatever state it is called, mapping,
    file, count of rewrites, pending replies and completer are afterwards
    what they were. *)
Theorem list_vars_reads_only (w : World) :
  untouched w (snd (list_vars w))
  /\ stdin (snd (list_vars w)) = stdin w
  /\ completer_keys (snd (list_vars w)) = completer_keys w.
Proof. apply list_vars_frame. Qed.

(** X5.  [list_vars] returns; for an empty mapping it prints the one line
    "No environment variables found.", otherwise a heading, a rule, one line
    [key = value] per entry and a rule.  The entries printed are those of
    the mapping, each once, in ascending order of [(key, value)], which for
    a mapping of distinct keys is strictly ascending order of key, whatever
    the order of insertion. *)
Theorem list_vars_prints_sorted (w : World) :
  sigint_tripped w = false ->
  fst (list_vars w) = Ok tt
  /\ (env_vars w = [] ->
      stdout (snd (list_vars w))
      = stdout w ++ [lit "No environment variables found." ++ [NL]])
  /\ (env_vars w <> [] ->
      stdout (snd (list_vars w))
      = stdout w
        ++ [NL :: lit "Current Environment Variables:" ++ [NL]]
        ++ [repeat 45%N 50 ++ [NL]]
        ++ map item_line (sorted (env_vars w))
        ++ [repeat 45%N 50 ++ [NL]])
  /\ Permutation (sorted (env_vars w)) (env_vars w)
  /\ Sorted in_order (sorted (env_vars w))
  /\ (distinct (keys (env_vars w)) = true ->
      Sorted (fun a b => str_ltb (fst a) (fst b) = true)
             (sorted (env_vars w))).
Proof.
  intros Hq. rewrite list_vars_quiet by exact Hq.
  destruct (sorted_spec (env_vars w)) as [P S].
  repeat split; auto using sorted_by_key.
  - intros He. open_world w. reflexivity.
  - intros He. open_world w. destruct env; [congruence|]. reflexivity.
Qed.

Lemma list_vars_prints_sorted_witness :
  stdout (snd (list_vars (store zoo None [])))
  = [NL :: lit "Current Environment Variables:" ++ [NL];
     repeat 45%N 50 ++ [NL];
     lit "ALPHA = 2" ++ [NL]; lit "MID = 3" ++ [NL]; lit "ZED = 1" ++ [NL];
     repeat 45%N 50 ++ [NL]].
Proof.
  pose proof (list_vars_prints_sorted (store zoo None []) eq_refl)
    as (_ & _ & H & _).
  rewrite H; [vm_compute; reflexivity|discriminate].
Defined.

(** X6.  Listing twice in a row prints the same listing twice and changes
    nothing else. *)
Theorem list_vars_twice (w : World) :
  sigint_tripped w = false ->
  (list_vars ;; list_vars) w
  = (Ok tt, set_stdout (stdout w ++ listing (env_vars w)
                                 ++ listing (env_vars w)) w).
Proof.
  intros Hq. open_world w. cbn.
  rewrite list_vars_quiet by reflexivity. cbn.
  rewrite list_vars_quiet by reflexivity. cbn.
  now rewrite <- app_assoc.
Qed.

Lemma list_vars_twice_witness :
  stdout (snd ((list_vars ;; list_vars) (store foo_bar None [])))
  = listing foo_bar ++ listing foo_bar.
Proof.
  rewrite (list_vars_twice (store foo_bar None []) eq_refl). reflexivity.
Defined.

(** ** The completer *)

Lemma has_prefix_nil (s : str) : has_prefix [] s = true.
Proof. now destruct s. Qed.

Lemma py_index_In {A} (l : list A) (i : Z) (x : A) :
  py_index l i = Some x -> In x l.
Proof.
  unfold py_index. destruct (0 <=? i)%Z.
  - apply nth_error_In.
  - destruct (- Z.of_nat (List.length l) <=? i)%Z; [apply nth_error_In|discriminate].
Qed.

Lemma py_index_nat {A} (l : list A) (n : nat) :
  py_index l (Z.of_nat n) = nth_error l n.
Proof.
  unfold py_index. replace (0 <=? Z.of_nat n)%Z with true
    by (symmetry; apply Z.leb_le; lia).
  now rewrite Nat2Z.id.
Qed.

Lemma complete_matches (ks : list str) (text : str) (state : Z) :
  complete ks text state = py_index (filter (has_prefix text) ks) state.
Proof.
  unfold complete. destruct text as [|c text]; cbn [truthy]; [|reflexivity].
  f_equal. induction ks as [|k ks IH]; [reflexivity|].
  cbn [filter]. rewrite has_prefix_nil. now f_equal.
Qed.

(** X7.  [EnvCompleter.complete], called with the states 0, 1, 2, ... as
    readline does, goes through the keys that start with the text typed, in
    the order the completer holds them, and gives [None] once they are
    used up; with an empty text these are all the keys.  So every candidate
    offered is one of the keys and starts with the text, and every key that
    starts with the text is offered at some state. *)
Theorem complete_offers_matching_keys (ks : list str) (text : str) :
  (forall n, complete ks text (Z.of_nat n)
             = nth_error (filter (has_prefix text) ks) n)
  /\ (forall state k, complete ks text state = Some k ->
                      In k ks /\ has_prefix text k = true)
  /\ (forall k, In k ks -> has_prefix text k = true ->
                exists n, complete ks text (Z.of_nat n) = Some k)
  /\ (forall n, complete ks text (Z.of_nat n) = None
                <-> List.length (filter (has_prefix text) ks) <= n)
  /\ (forall n, complete ks [] (Z.of_nat n) = nth_error ks n).
Proof.
  repeat split.
  - intros n. now rewrite complete_matches, py_index_nat.
  - rewrite complete_matches in H. apply py_index_In, filter_In in H. tauto.
  - rewrite complete_matches in H. apply py_index_In, filter_In in H. tauto.
  - intros k Hk Hp.
    assert (Hin : In k (filter (has_prefix text) ks)) by (apply filter_In; auto).
    apply In_nth_error in Hin as [n Hn]. exists n.
    now rewrite complete_matches, py_index_nat.
  - rewrite complete_matches, py_index_nat. apply nth_error_None.
  - rewrite complete_matches, py_index_nat. apply nth_error_None.
  - intros n. unfold complete. cbn [truthy]. apply py_index_nat.
Qed.

(** X8.  The completer follows the mapping.  When the constructor returns,
    the completer holds the keys of the mapping in their order.  If it does
    so before a call of [list_vars] or [edit_var], it does so after the
    call, whatever is typed and however the call ends: neither changes the
    keys.  If it does so before a call of [add_var] or [delete_var], it does
    so when the call returns. *)
Theorem completer_follows_mapping (lw : str -> str) (w : World) (path : str) :
  (fst (EnvManager_init path w) = Ok tt ->
   completer_current (snd (EnvManager_init path w)))
  /\ (completer_current w ->
      completer_current (snd (list_vars w))
      /\ completer_current (snd (edit_var w))
      /\ (fst (add_var w) = Ok tt -> completer_current (snd (add_var w)))
      /\ (fst (delete_var lw w) = Ok tt ->
          completer_current (snd (delete_var lw w)))).
Proof.
  unfold completer_current. split.
  - open_world w.
    match goal with |- context [EnvManager_init path ?w0] =>
      run_of (EnvManager_init path w0) end.
    walk; cbn; intros Hr; try discriminate Hr; reflexivity.
  - intros Hc. split; [|split; [|split]].
    + destruct (list_vars_frame w) as ((-> & _) & _ & ->). exact Hc.
    + open_world w.
      match goal with |- context [edit_var ?w0] => run_of (edit_var w0) end.
      walk; cbn; auto; rewrite keys_dict_set;
        match goal with H : negb (dict_mem _ _) = false |- _ =>
          apply negb_false_iff in H; now rewrite H end.
    + open_world w.
      match goal with |- context [add_var ?w0] => run_of (add_var w0) end.
      walk; cbn; intros Hr; try discriminate Hr; reflexivity.
    + open_world w.
      match goal with |- context [delete_var lw ?w0] =>
        run_of (delete_var lw w0) end.
      walk; cbn; intros Hr; try discriminate Hr; reflexivity.
Qed.

(** With a signal that arrives between the change of the mapping and the
    renewal of the completer, [add_var] leaves the completer behind. *)
Lemma completer_left_behind :
  completer_current interrupted_in_add
  /\ fst (add_var interrupted_in_add) = Raise (SystemExit 0)
  /\ ~ completer_current (snd (add_var interrupted_in_add)).
Proof.
  split; [reflexivity|]. split; [reflexivity|].
  unfold completer_current. vm_compute. discriminate.
Qed.

Lemma completer_follows_mapping_witness :
  completer_current
    (snd (add_var (store foo_bar None [Line (lit "NEW"); Line (lit "v")])))
  /\ completer_current
       (snd (delete_var lower_id
               (store foo_bar None [Line (lit "FOO"); Line (lit "y")]))).
Proof.
  pose proof (completer_follows_mapping lower_id
                (store foo_bar None [Line (lit "NEW"); Line (lit "v")])
                (lit "p")) as (_ & H).
  pose proof (completer_follows_mapping lower_id
                (store foo_bar None [Line (lit "FOO"); Line (lit "y")])
                (lit "p")) as (_ & H').
  split; [apply (H eq_refl); reflexivity|apply (H' eq_refl); reflexivity].
Defined.

Lemma complete_offers_matching_keys_witness :
  In (lit "FOO") [lit "BAR"; lit "FOO"; lit "FIZZ"]
  /\ has_prefix (lit "F") (lit "FOO") = true.
Proof.
  pose proof (complete_offers_matching_keys
                [lit "BAR"; lit "FOO"; lit "FIZZ"] (lit "F"))
    as (_ & H & _).
  apply (H 0%Z). reflexivity.
Defined.

(** ** What the methods do to the mapping *)

Lemma dict_set_split (k v v' : str) (d : dict) :
  dict_get k d = Some v ->
  exists d1 d2, d = d1 ++ (k, v) :: d2
                /\ dict_set k v' d = d1 ++ (k, v') :: d2
                /\ dict_mem k d1 = false.
Proof.
  induction d as [|[k0 v0] d IH]; [discriminate|].
  rewrite dict_get_cons, dict_set_cons.
  destruct (str_eqb k k0) eqn:E.
  - intros H. inversion H; subst v0. apply str_eqb_eq in E. subst k0.
    exists [], d. auto.
  - intros H. destruct (IH H) as (d1 & d2 & H1 & H2 & H3).
    exists ((k0, v0) :: d1), d2. rewrite H2, H1 at 1.
    repeat split; try reflexivity.
    unfold dict_mem. rewrite dict_get_cons, E. exact H3.
Qed.

Lemma dict_del_split (k : str) (d : dict) :
  dict_mem k d = true ->
  exists d1 v d2, d = d1 ++ (k, v) :: d2
                  /\ dict_del k d = d1 ++ d2
                  /\ dict_mem k d1 = false.
Proof.
  unfold dict_mem. induction d as [|[k0 v0] d IH]; [discriminate|].
  rewrite dict_get_cons, dict_del_cons.
  destruct (str_eqb k k0) eqn:E.
  - intros _. apply str_eqb_eq in E. subst k0. exists [], v0, d. auto.
  - intros H. destruct (IH H) as (d1 & v & d2 & H1 & H2 & H3).
    exists ((k0, v0) :: d1), v, d2. rewrite H2, H1 at 1.
    repeat split; try reflexivity.
    rewrite dict_get_cons, E. exact H3.
Qed.

Lemma dict_del_appended (k v : str) (d : dict) :
  dict_mem k d = false -> dict_del k (d ++ [(k, v)]) = d.
Proof.
  unfold dict_mem. induction d as [|[k0 v0] d IH].
  - intros _. change (dict_del k ([] ++ [(k, v)]))
      with (if str_eqb k k then [] else (k, v) :: dict_del k []).
    now rewrite str_eqb_refl.
  - rewrite dict_get_cons, <- app_comm_cons, dict_del_cons.
    destruct (str_eqb k k0); [discriminate|]. intros H. now rewrite IH.
Qed.

(** X9.  In whatever state [add_var] is called and whatever is typed, the
    mapping is afterwards what it was, or what it was followed by one new
    entry whose key is not empty, was not present, and is trimmed, as is its
    value: [add_var] never alters or reorders an entry that exists. *)
Theorem add_var_only_appends (w : World) :
  env_vars (snd (add_var w)) = env_vars w
  \/ exists k v,
       env_vars (snd (add_var w)) = env_vars w ++ [(k, v)]
       /\ k <> [] /\ dict_mem k (env_vars w) = false
       /\ trimmed k = true /\ trimmed v = true.
Proof.
  open_world w.
  match goal with |- context [add_var ?w0] => run_of (add_var w0) end.
  walk; cbn; auto; right;
    match goal with
    | H : negb (truthy (strip ?s)) = false, H' : dict_mem _ _ = false
      |- context [dict_set _ (strip ?t) _] =>
        exists (strip s), (strip t);
        apply negb_false_iff in H; apply truthy_true in H;
        rewrite (dict_set_absent _ _ _ H'); auto using strip_trimmed
    end.
Qed.

(** X10.  In whatever state [edit_var] is called and whatever is typed, the
    mapping is afterwards what it was, or differs in the value of exactly
    one entry, which keeps its key and its place and has a new value that is
    trimmed and not empty: [edit_var] never adds, removes, renames or
    reorders an entry. *)
Theorem edit_var_only_replaces_a_value (w : World) :
  env_vars (snd (edit_var w)) = env_vars w
  \/ exists d1 k v v' d2,
       env_vars w = d1 ++ (k, v) :: d2
       /\ env_vars (snd (edit_var w)) = d1 ++ (k, v') :: d2
       /\ v' <> [] /\ trimmed v' = true.
Proof.
  open_world w.
  match goal with |- context [edit_var ?w0] => run_of (edit_var w0) end.
  walk; cbn; auto;
    first [ left; now apply dict_set_same
          | right;
            match goal with
            | H : dict_get ?k _ = Some ?v, H' : negb (truthy (strip ?t)) = false
              |- _ =>
                destruct (dict_set_split k v (strip t) _ H)
                  as (d1 & d2 & E1 & E2 & _);
                exists d1, k, v, (strip t), d2;
                apply negb_false_iff in H'; apply truthy_true in H';
                auto using strip_trimmed
            end ].
Qed.

(** X11.  In whatever state [delete_var] is called and whatever is typed,
    the mapping is afterwards what it was, or what it was without exactly
    one entry, the others keeping their values and their order. *)
Theorem delete_var_only_removes_one (lw : str -> str) (w : World) :
  env_vars (snd (delete_var lw w)) = env_vars w
  \/ exists d1 k v d2,
       env_vars w = d1 ++ (k, v) :: d2
       /\ env_vars (snd (delete_var lw w)) = d1 ++ d2
       /\ dict_mem k d1 = false.
Proof.
  open_world w.
  match goal with |- context [delete_var lw ?w0] =>
    run_of (delete_var lw w0) end.
  walk; cbn; auto; right;
    match goal with
    | H : dict_mem ?k ?d = true |- _ =>
        destruct (dict_del_split k d H) as (d1 & v & d2 & E1 & E2 & E3);
        exists d1, k, v, d2; auto
    end.
Qed.

(** X12.  Adding a new key and then deleting it, with the deletion
    confirmed, gives back the mapping as it was, entry for entry, and leaves
    the file holding that mapping, after two rewrites. *)
Theorem add_then_delete_restores (lw : str -> str) (w : World)
        (k v k' c : str) (r : list event) :
  sigint_tripped w = false ->
  stdin w = Line k :: Line v :: Line k' :: Line c :: r ->
  strip k <> [] ->
  dict_mem (strip k) (env_vars w) = false ->
  strip k' = strip k ->
  lower lw (strip c) = lit "y" ->
  fst ((add_var ;; delete_var lw) w) = Ok tt
  /\ env_vars (snd ((add_var ;; delete_var lw) w)) = env_vars w
  /\ disk (snd ((add_var ;; delete_var lw) w)) = Some (serialize (env_vars w))
  /\ writes (snd ((add_var ;; delete_var lw) w)) = S (S (writes w)).
Proof.
  intros Hq Hi Hk Hm Hk' Hc. apply truthy_true in Hk. apply str_eqb_eq in Hc.
  open_world w. unfold add_var, delete_var. cbn.
  rewrite Hk. cbn. rewrite Hm. cbn.
  rewrite save_env_vars_quiet by reflexivity. cbn.
  rewrite list_vars_quiet by reflexivity. cbn.
  rewrite Hk'. rewrite (dict_set_absent _ (strip v) _ Hm).
  assert (Hin : dict_mem (strip k) (env ++ [(strip k, strip v)]) = true).
  { unfold dict_mem. rewrite dict_get_app.
    destruct (dict_get (strip k) env); [reflexivity|].
    change (dict_get (strip k) [(strip k, strip v)])
      with (if str_eqb (strip k) (strip k) then Some (strip v) else None).
    now rewrite str_eqb_refl. }
  rewrite Hin. cbn. rewrite Hc. cbn. rewrite Hin. cbn.
  rewrite save_env_vars_quiet by reflexivity. cbn.
  rewrite (dict_del_appended _ _ _ Hm). auto.
Qed.

Lemma add_then_delete_restores_witness :
  env_vars (snd ((add_var ;; delete_var lower_id)
                   (store foo_bar (Some four_lines)
                      [Line (lit "TMP"); Line (lit "1");
                       Line (lit " TMP "); Line (lit "Y")])))
  = foo_bar.
Proof.
  assert (Hk : strip (lit "TMP") <> []) by (vm_compute; discriminate).
  pose proof (add_then_delete_restores lower_id
                (store foo_bar (Some four_lines)
                   [Line (lit "TMP"); Line (lit "1");
                    Line (lit " TMP "); Line (lit "Y")])
                (lit "TMP") (lit "1") (lit " TMP ") (lit "Y") []
                eq_refl eq_refl Hk eq_refl eq_refl eq_refl) as (_ & H & _).
  exact H.
Defined.

(** ** Completion after a change *)

(** X13.  After a successful [add_var] the completer offers the new key for
    every text the key starts with; after a confirmed [delete_var] on a
    mapping of distinct keys it no longer offers the deleted key, whatever
    the text and the state. *)
Theorem completion_tracks_add_and_delete (lw : str -> str) (w : World)
        (k v : str) (r : list event) :
  sigint_tripped w = false ->
  stdin w = Line k :: Line v :: r ->
  (strip k <> [] -> dict_mem (strip k) (env_vars w) = false ->
   forall text, has_prefix text (strip k) = true ->
   exists n, complete (completer_keys (snd (add_var w))) text (Z.of_nat n)
             = Some (strip k))
  /\ (dict_mem (strip k) (env_vars w) = true ->
      lower lw (strip v) = lit "y" ->
      distinct (keys (env_vars w)) = true ->
      forall text state,
        complete (completer_keys (snd (delete_var lw w))) text state
        <> Some (strip k)).
Proof.
  intros Hq Hi. split.
  - intros Hk Hm text Hp. apply truthy_true in Hk.
    assert (Hc : completer_keys (snd (add_var w))
                 = keys (env_vars w) ++ [strip k]).
    { open_world w. unfold add_var. cbn. rewrite Hk. cbn. rewrite Hm. cbn.
      rewrite save_env_vars_quiet by reflexivity. cbn.
      now rewrite keys_dict_set, Hm. }
    rewrite Hc.
    assert (Hin : In (strip k)
                     (filter (has_prefix text) (keys (env_vars w) ++ [strip k]))).
    { apply filter_In. split; [|exact Hp]. apply in_or_app. right. now left. }
    apply In_nth_error in Hin as [n Hn]. exists n.
    now rewrite complete_matches, py_index_nat.
  - intros Hm Hy Hd text state Hc. apply str_eqb_eq in Hy.
    assert (Hk : completer_keys (snd (delete_var lw w))
                 = keys (dict_del (strip k) (env_vars w))).
    { open_world w. unfold delete_var. cbn.
      rewrite list_vars_quiet by reflexivity. cbn.
      rewrite Hm. cbn. rewrite Hy. cbn. rewrite Hm. cbn.
      now rewrite save_env_vars_quiet by reflexivity. }
    rewrite Hk, complete_matches in Hc.
    apply py_index_In, filter_In in Hc as [Hc _].
    apply existsb_str_eqb_In in Hc. rewrite <- dict_mem_keys in Hc.
    rewrite dict_mem_del in Hc by exact Hd. discriminate.
Qed.

Lemma completion_tracks_add_and_delete_witness :
  exists n,
    complete (completer_keys
                (snd (add_var (store foo_bar None
                                 [Line (lit "FLAG"); Line (lit "on")]))))
             (lit "F") (Z.of_nat n)
    = Some (lit "FLAG").
Proof.
  assert (Hk : strip (lit "FLAG") <> []) by (vm_compute; discriminate).
  pose proof (completion_tracks_add_and_delete lower_id
                (store foo_bar None [Line (lit "FLAG"); Line (lit "on")])
                (lit "FLAG") (lit "on") [] eq_refl eq_refl) as (H & _).
  exact (H Hk eq_refl (lit "F") eq_refl).
Defined.

(** ** Turns of the menu *)

Ltac absurd_branch :=
  solve [ discriminate
        | congruence
        | match goal with
          | H : negb (dict_mem ?k ?d) = false, H' : dict_get ?k ?d = None |- _ =>
              unfold dict_mem in H; rewrite H' in H; discriminate H
          end ].

(** A turn that returns has left mapping and file alone or has rewritten
    the file from the mapping. *)
Lemma menu_turn_returned (lw : str -> str) (w : World) (b : bool) :
  sigint_handler w = true ->
  fst (menu_turn lw w) = Ok b ->
  untouched w (snd (menu_turn lw w)) \/ saved w (snd (menu_turn lw w)).
Proof.
  intros Hh. unfold untouched, saved. open_world w.
  match goal with |- context [menu_turn lw ?w0] => run_of (menu_turn lw w0) end.
  walk; cbn; intros Hr; try discriminate Hr; auto.
Qed.

(** With the handler installed and no signal under way, a turn ends in one
    of four ways, and when it ends in an exception nothing was changed. *)
Lemma menu_turn_ends (lw : str -> str) (w : World) :
  sigint_handler w = true -> sigint_tripped w = false ->
  (exists b, fst (menu_turn lw w) = Ok b)
  \/ (untouched w (snd (menu_turn lw w))
      /\ (fst (menu_turn lw w) = Raise EOFError
          \/ fst (menu_turn lw w) = Raise (SystemExit 0))).
Proof.
  intros Hh Hq. unfold untouched. open_world w.
  match goal with |- context [menu_turn lw ?w0] => run_of (menu_turn lw w0) end.
  walk; cbn; eauto 8; exfalso; absurd_branch.
Qed.



(** X15.  With the handler installed, whether a signal is under way or not,
    a turn of the menu that returns has either left mapping, file and count
    of rewrites as they were, or rewritten the file exactly once, from the
    mapping as it is at the end of the turn. *)
Theorem menu_turn_rewrites_or_leaves (lw : str -> str) (w : World) (b : bool) :
  sigint_handler w = true ->
  fst (menu_turn lw w) = Ok b ->
  untouched w (snd (menu_turn lw w)) \/ saved w (snd (menu_turn lw w)).
Proof. apply menu_turn_returned. Qed.

Lemma menu_turn_rewrites_or_leaves_witness :
  saved (store foo_bar (Some four_lines)
           [Line (lit "2"); Line (lit "K"); Line (lit "v")])
        (snd (menu_turn lower_id
                (store foo_bar (Some four_lines)
                   [Line (lit "2"); Line (lit "K"); Line (lit "v")]))).
Proof.
  destruct (menu_turn_rewrites_or_leaves lower_id
              (store foo_bar (Some four_lines)
                 [Line (lit "2"); Line (lit "K"); Line (lit "v")])
              true eq_refl eq_refl) as [(H & _)|H].
  - vm_compute in H. discriminate H.
  - exact H.
Defined.

(** A run of the loop, given fuel for the replies at hand. *)
Lemma main_loop_run (lw : str -> str) (fuel : nat) (w : World) :
  sigint_handler w = true -> sigint_tripped w = false ->
  List.length (stdin w) < fuel ->
  exists r w',
    main_loop lw fuel w = Some (r, w')
    /\ (r = Ok tt \/ r = Raise EOFError \/ r = Raise (SystemExit 0))
    /\ ((env_vars w' = env_vars w /\ disk w' = disk w) \/ synced w')
    /\ (synced w -> synced w').
Proof.
  revert w. induction fuel as [|fuel IH]; intros w Hh Hq Hl; [lia|].
  cbn [main_loop].
  pose proof (menu_turn_ends lw w Hh Hq) as Ends.
  assert (Step : forall w1, snd (menu_turn lw w) = w1 ->
                 ((env_vars w1 = env_vars w /\ disk w1 = disk w) \/ synced w1)
                 /\ (synced w -> synced w1)).
  { intros w1 <-. unfold synced.
    assert (Eff : untouched w (snd (menu_turn lw w))
                  \/ saved w (snd (menu_turn lw w))).
    { destruct Ends as [[b Hb]|[Hu _]]; [|now left].
      now apply (menu_turn_returned lw w b). }
    destruct Eff as [(E1 & E2 & _)|(E1 & _)].
    - split; [left; auto|]. now rewrite E1, E2.
    - split; [right|]; auto. }
  destruct (menu_turn lw w) as [[[|]|e] w1] eqn:E; cbn [fst snd] in *.
  - destruct (menu_turn_goes_on lw w w1 Hh Hq E) as (H1 & H2 & H3).
    destruct (IH w1 H1 H2) as (r & w' & R1 & R2 & R3 & R4); [lia|].
    destruct (Step w1 eq_refl) as [S1 S2].
    exists r, w'. repeat split; auto.
    destruct R3 as [[A B]|C]; [|now right].
    destruct S1 as [[A' B']|C']; [left; split; congruence|].
    right. apply R4, C'.
  - exists (Ok tt), w1. split; [reflexivity|]. split; [auto|]. now apply Step.
  - exists (Raise e), w1. split; [reflexivity|]. split; [|now apply Step].
    destruct Ends as [[b Hb]|[_ [He|He]]]; [discriminate| |];
      inversion He; auto.
Qed.

(** X16.  From a store with its handler installed and no signal under way,
    the loop of [main] comes to an end on the replies at hand.  When it ends
    because of the choice 5 or because the replies ran out, the file is
    either what it was at the start, the mapping being unchanged too, or
    holds exactly the mapping as it is then; and if the file held the
    mapping at the start it holds it at the end. *)
Theorem session_keeps_file_in_step (lw : str -> str) (fuel : nat) (w : World) :
  sigint_handler w = true ->
  sigint_tripped w = false ->
  List.length (stdin w) < fuel ->
  exists r w',
    main_loop lw fuel w = Some (r, w')
    /\ (r = Ok tt \/ r = Raise EOFError ->
        ((env_vars w' = env_vars w /\ disk w' = disk w) \/ synced w')
        /\ (synced w -> synced w')).
Proof.
  intros Hh Hq Hl.
  destruct (main_loop_run lw fuel w Hh Hq Hl) as (r & w' & H1 & _ & H2 & H3).
  eauto.
Qed.

Lemma session_keeps_file_in_step_witness :
  exists r w',
    main_loop lower_id 10
      (store foo_bar (Some four_lines)
         [Line (lit "2"); Line (lit "K"); Line (lit "v"); Line (lit "9")])
    = Some (r, w')
    /\ r = Raise EOFError
    /\ synced w'.
Proof.
  assert (L : List.length
                (stdin (store foo_bar (Some four_lines)
                          [Line (lit "2"); Line (lit "K"); Line (lit "v");
                           Line (lit "9")])) < 10) by (cbn; lia).
  destruct (session_keeps_file_in_step lower_id 10
              (store foo_bar (Some four_lines)
                 [Line (lit "2"); Line (lit "K"); Line (lit "v"); Line (lit "9")])
              eq_refl eq_refl L) as (r & w' & H & K).
  exists r, w'. split; [exact H|].
  assert (R : r = Raise EOFError) by (vm_compute in H; now inversion H).
  split; [exact R|].
  destruct (K (or_intror R)) as [[(A & _)|S] _]; [|exact S].
  vm_compute in H. inversion H. subst w'. vm_compute in A. discriminate A.
Defined.

(** X17.  Started with no signal under way, [main] comes to an end on the
    replies at hand.  When it ends by returning, after the choice 5, or
    because the replies ran out, the file is what it was before the start
    or holds exactly the mapping. *)
Theorem main_keeps_file_in_step (lw : str -> str) (path : str) (fuel : nat)
        (w : World) :
  sigint_tripped w = false ->
  List.length (stdin w) < fuel ->
  exists r w',
    main lw path fuel w = Some (r, w')
    /\ (r = Ok tt \/ r = Raise EOFError ->
        disk w' = disk w \/ synced w').
Proof.
  intros Hq Hl. unfold main. unfold bind at 1.
  destruct (EnvManager_init_quiet path w Hq)
    as (H1 & _ & H2 & _ & H3 & H4 & H5).
  destruct (EnvManager_init path w) as [r0 w1]. cbn [fst snd] in *. subst r0.
  open_world w1. cbn.
  match goal with |- context [main_loop lw fuel ?w2] =>
    destruct (main_loop_run lw fuel w2) as (r & w' & R1 & R2 & R3 & _);
      [reflexivity|reflexivity|cbn; exact Hl|]
  end.
  exists r, w'. split; [exact R1|]. intros _.
  destruct R3 as [[_ D]|S]; [left|right; exact S]. now rewrite D.
Qed.

Lemma main_keeps_file_in_step_witness :
  exists r w',
    main lower_id (lit "f") 5 (start (lit "f") None [Line (lit "1")])
    = Some (r, w')
    /\ r = Raise EOFError
    /\ disk w' = None.
Proof.
  assert (L : List.length (stdin (start (lit "f") None [Line (lit "1")])) < 5)
    by (cbn; lia).
  destruct (main_keeps_file_in_step lower_id (lit "f") 5
              (start (lit "f") None [Line (lit "1")]) eq_refl L)
    as (r & w' & H & _).
  exists r, w'. split; [exact H|].
  vm_compute in H. inversion H. split; reflexivity.
Defined.

(** X18.  The choice is read trimmed.  The choice 5 prints "Goodbye!" and
    stops the loop; a reply that is none of 1 to 5, the empty line included,
    is answered with "Invalid choice. Please try again." and the loop goes
    on.  In both cases mapping, file and count of rewrites are unchanged and
    only that one reply has been read. *)
Theorem menu_turn_other_choices (lw : str -> str) (w : World) (c : str)
        (r : list event) :
  sigint_tripped w = false ->
  stdin w = Line c :: r ->
  (strip c = lit "5" ->
   fst (menu_turn lw w) = Ok false
   /\ untouched w (snd (menu_turn lw w))
   /\ last (stdout (snd (menu_turn lw w))) [] = lit "Goodbye!" ++ [NL]
   /\ stdin (snd (menu_turn lw w)) = r)
  /\ (strip c <> lit "1" -> strip c <> lit "2" -> strip c <> lit "3" ->
      strip c <> lit "4" -> strip c <> lit "5" ->
      fst (menu_turn lw w) = Ok true
      /\ untouched w (snd (menu_turn lw w))
      /\ last (stdout (snd (menu_turn lw w))) []
         = lit "Invalid choice. Please try again." ++ [NL]
      /\ stdin (snd (menu_turn lw w)) = r).
Proof.
  intros Hq Hi. unfold untouched. split.
  - intros H5.
    assert (N1 : str_eqb (strip c) (lit "1") = false) by now rewrite H5.
    assert (N2 : str_eqb (strip c) (lit "2") = false) by now rewrite H5.
    assert (N3 : str_eqb (strip c) (lit "3") = false) by now rewrite H5.
    assert (N4 : str_eqb (strip c) (lit "4") = false) by now rewrite H5.
    apply str_eqb_eq in H5.
    open_world w. unfold menu_turn. cbn.
    rewrite N1, N2, N3, N4, H5. cbn. rewrite last_last. auto.
  - intros N1 N2 N3 N4 N5. apply str_eqb_neq in N1, N2, N3, N4, N5.
    open_world w. unfold menu_turn. cbn.
    rewrite N1, N2, N3, N4, N5. cbn. rewrite last_last. auto.
Qed.

Lemma menu_turn_other_choices_witness :
  fst (menu_turn lower_id (store foo_bar None [Line (lit " 5 ")])) = Ok false
  /\ fst (menu_turn lower_id (store foo_bar None [Line []])) = Ok true.
Proof.
  split.
  - pose proof (menu_turn_other_choices lower_id
                  (store foo_bar None [Line (lit " 5 ")]) (lit " 5 ") []
                  eq_refl eq_refl) as (H & _).
    apply H. reflexivity.
  - pose proof (menu_turn_other_choices lower_id
                  (store foo_bar None [Line []]) [] []
                  eq_refl eq_refl) as (_ & H).
    apply H; vm_compute; discriminate.
Defined.

(** ** More on loading *)

Lemma keys_assigned (es d : dict) :
  keys (fold_left (fun d kv => dict_set (fst kv) (snd kv) d) es d)
  = fold_left (fun acc kv => if existsb (str_eqb (fst kv)) acc then acc
                             else acc ++ [fst kv]) es (keys d).
Proof.
  revert d. induction es as [|[k v] es IH]; intros d; [reflexivity|].
  cbn [fold_left fst snd]. rewrite IH, keys_dict_set, dict_mem_keys.
  now destruct (existsb (str_eqb k) (keys d)).
Qed.

(** X19.  After a load, the keys of the mapping stand in the order in which
    the file first assigns to them, each once. *)
Theorem load_keeps_first_positions (w : World) (c : str) :
  sigint_tripped w = false ->
  disk w = Some c ->
  keys (env_vars (snd (load_env_vars w)))
  = first_keys (assignments (file_lines c)).
Proof.
  intros Hq Hc. rewrite (load_env_vars_file w c Hq Hc).
  replace (env_vars (snd (Ok tt, set_env_vars (load_lines (file_lines c)) w)))
    with (load_lines (file_lines c)) by now destruct w.
  rewrite load_lines_assignments. apply keys_assigned.
Qed.

Lemma load_keeps_first_positions_witness :
  env_vars (snd (load_env_vars
                   (start (lit "f")
                      (Some (lit "A=1" ++ [NL] ++ lit "B=2" ++ [NL]
                             ++ lit " A = 3 " ++ [NL])) [])))
  = [(lit "A", lit "3"); (lit "B", lit "2")]
  /\ keys (env_vars (snd (load_env_vars
                   (start (lit "f")
                      (Some (lit "A=1" ++ [NL] ++ lit "B=2" ++ [NL]
                             ++ lit " A = 3 " ++ [NL])) []))))
     = [lit "A"; lit "B"].
Proof.
  split; [vm_compute; reflexivity|].
  rewrite (load_keeps_first_positions
             (start (lit "f")
                (Some (lit "A=1" ++ [NL] ++ lit "B=2" ++ [NL]
                       ++ lit " A = 3 " ++ [NL])) [])
             (lit "A=1" ++ [NL] ++ lit "B=2" ++ [NL] ++ lit " A = 3 " ++ [NL])
             eq_refl eq_refl).
  vm_compute. reflexivity.
Defined.

Lemma universal_newlines_crlf (s : str) :
  forallb (fun c => negb (N.eqb c CR)) s = true ->
  universal_newlines (with_crlf s) = s.
Proof.
  induction s as [|c s IH]; [reflexivity|]. cbn [forallb].
  intros H. apply andb_true_iff in H as [Hc Hs]. apply negb_true_iff in Hc.
  unfold with_crlf. cbn [flat_map]. fold (with_crlf s).
  destruct (N.eqb c NL) eqn:E.
  - apply N.eqb_eq in E. subst c.
    change (universal_newlines ([CR; NL] ++ with_crlf s))
      with (NL :: universal_newlines (with_crlf s)).
    now rewrite IH.
  - change (universal_newlines ([c] ++ with_crlf s))
      with (if N.eqb c CR
            then match with_crlf s with
                 | c' :: s'' => if N.eqb c' NL then NL :: universal_newlines s''
                                else NL :: universal_newlines (with_crlf s)
                 | [] => [NL]
                 end
            else c :: universal_newlines (with_crlf s)).
    now rewrite Hc, IH.
Qed.

Lemma universal_newlines_cr (s : str) :
  forallb (fun c => negb (N.eqb c CR)) s = true ->
  universal_newlines (with_cr s) = s.
Proof.
  induction s as [|c s IH]; [reflexivity|]. cbn [forallb].
  intros H. apply andb_true_iff in H as [Hc Hs]. apply negb_true_iff in Hc.
  unfold with_cr. cbn [map]. fold (with_cr s).
  destruct (N.eqb c NL) eqn:E.
  - apply N.eqb_eq in E. subst c. cbn [universal_newlines].
    change (N.eqb CR CR) with true. cbv iota.
    rewrite IH by exact Hs.
    destruct s as [|c' s]; [reflexivity|].
    unfold with_cr. cbn [map]. fold (with_cr s).
    destruct (N.eqb c' NL) eqn:E'.
    + change (N.eqb CR NL) with false. cbv iota. reflexivity.
    + rewrite E'. reflexivity.
  - cbn [universal_newlines]. now rewrite Hc, IH.
Qed.

Lemma load_env_vars_by_lines (w : World) (c c' : str) :
  file_lines c = file_lines c' ->
  env_vars (snd (load_env_vars (set_disk (Some c) w)))
  = env_vars (snd (load_env_vars (set_disk (Some c') w))).
Proof.
  intros H. open_world w. unfold load_env_vars.
  destruct trip; [destruct dl as [|dl]|]; cbn;
    rewrite ?load_each; cbn; try destruct hnd; cbn; now rewrite ?H.
Qed.

(** X20.  The three line endings are read alike: a file without carriage
    return loads to the same mapping when each of its newlines is written as
    carriage return and line feed, or as carriage return alone. *)
Theorem load_reads_all_line_endings (w : World) (c : str) :
  forallb (fun x => negb (N.eqb x CR)) c = true ->
  env_vars (snd (load_env_vars (set_disk (Some (with_crlf c)) w)))
  = env_vars (snd (load_env_vars (set_disk (Some c) w)))
  /\ env_vars (snd (load_env_vars (set_disk (Some (with_cr c)) w)))
     = env_vars (snd (load_env_vars (set_disk (Some c) w))).
Proof.
  intros H. split; apply load_env_vars_by_lines; unfold file_lines.
  - now rewrite universal_newlines_crlf, universal_newlines_plain.
  - now rewrite universal_newlines_cr, universal_newlines_plain.
Qed.

Lemma load_reads_all_line_endings_witness :
  env_vars (snd (load_env_vars
                   (set_disk (Some (with_crlf four_lines))
                      (start (lit "f") None []))))
  = foo_bar.
Proof.
  pose proof (load_reads_all_line_endings (start (lit "f") None [])
                four_lines eq_refl) as (H & _).
  rewrite H. reflexivity.
Defined.

(** ** The constructor *)

(** X21.  Building the store never writes: in whatever state the constructor
    runs and however it ends, the file and the count of rewrites are what
    they were.  When no signal is pending it returns, with the handler
    installed and the replies unread, and when the file exists it prints
    nothing. *)
Theorem constructor_does_not_write (w : World) (path : str) :
  disk (snd (EnvManager_init path w)) = disk w
  /\ writes (snd (EnvManager_init path w)) = writes w
  /\ (sigint_tripped w = false ->
      fst (EnvManager_init path w) = Ok tt
      /\ sigint_handler (snd (EnvManager_init path w)) = true
      /\ stdin (snd (EnvManager_init path w)) = stdin w
      /\ (disk w <> None ->
          stdout (snd (EnvManager_init path w)) = stdout w)).
Proof.
  assert (Hw : disk (snd (EnvManager_init path w)) = disk w
               /\ writes (snd (EnvManager_init path w)) = writes w).
  { open_world w.
    match goal with |- context [EnvManager_init path ?w0] =>
      run_of (EnvManager_init path w0) end.
    walk; cbn; auto. }
  destruct Hw as [Hd Hn]. split; [exact Hd|]. split; [exact Hn|]. intros Hq.
  destruct (EnvManager_init_quiet path w Hq) as (H1 & _ & H2 & H3 & H4 & _ & H5).
  repeat split; auto.
  intros Hf. open_world w. unfold EnvManager_init. cbn.
  destruct file as [c|]; [|congruence].
  erewrite load_env_vars_file by reflexivity. reflexivity.
Qed.

Lemma constructor_does_not_write_witness :
  stdout (snd (EnvManager_init (lit "f")
                 (start (lit "f") (Some four_lines) []))) = [].
Proof.
  pose proof (constructor_does_not_write
                (start (lit "f") (Some four_lines) []) (lit "f"))
    as (_ & _ & H).
  destruct (H eq_refl) as (_ & _ & _ & H').
  apply H'. discriminate.
Defined.

(** ** The empty key *)

Lemma strip_rstrip (s : str) : strip (rstrip s) = strip s.
Proof.
  unfold strip. rewrite <- rstrip_lstrip_comm.
  apply rstrip_fixed, rstrip_last.
Qed.

Lemma parse_line_empty_key (v : str) :
  parse_line (EQ :: v ++ [NL]) = Some ([], strip v).
Proof.
  unfold parse_line. cbv zeta.
  change (EQ :: v ++ [NL]) with ((EQ :: v) ++ [NL]).
  rewrite strip_blank_app_r by reflexivity.
  assert (E : strip (EQ :: v) = EQ :: rstrip v).
  { unfold strip. change (lstrip (EQ :: v)) with (EQ :: v).
    rewrite rstrip_cons. now destruct (rstrip v). }
  rewrite E. change (split1 EQ (EQ :: rstrip v)) with [[]; rstrip v].
  cbn [truthy startswith negb andb]. change (N.eqb EQ HASH) with false.
  cbn [negb]. now rewrite strip_rstrip.
Qed.

(** X22.  The empty key can come from the file, though [add_var] refuses
    it: a file whose one line is ['=' value] loads to the mapping with the
    single key "" and the value trimmed.  In a store that holds the key "",
    an empty reply to the key prompt of [edit_var] selects that entry, and a
    new value given for it is stored. *)
Theorem empty_key_comes_from_file (w : World) (v k v' cur : str)
        (r : list event) :
  sigint_tripped w = false ->
  (one_line v = true -> disk w = Some (EQ :: v ++ [NL]) ->
   env_vars (snd (load_env_vars w)) = [([], strip v)])
  /\ (stdin w = Line k :: Line v' :: r -> strip k = [] ->
      dict_get [] (env_vars w) = Some cur -> strip v' <> [] ->
      refused add_var w (lit "Key cannot be empty!")
      /\ fst (edit_var w) = Ok tt
      /\ dict_get [] (env_vars (snd (edit_var w))) = Some (strip v')).
Proof.
  intros Hq. split.
  - intros Hv Hd. rewrite (load_env_vars_file w _ Hq Hd).
    replace (env_vars (snd (Ok tt, set_env_vars
                                    (load_lines (file_lines (EQ :: v ++ [NL]))) w)))
      with (load_lines (file_lines (EQ :: v ++ [NL]))) by now destruct w.
    assert (L : file_lines (EQ :: v ++ [NL]) = [EQ :: v ++ [NL]]).
    { unfold file_lines. rewrite universal_newlines_plain.
      - change (EQ :: v ++ [NL]) with ((EQ :: v) ++ NL :: []).
        rewrite lines_from_line; [reflexivity|].
        change (contains NL (EQ :: v)) with (N.eqb NL EQ || contains NL v).
        now rewrite one_line_no_NL.
      - change (EQ :: v ++ [NL]) with ([EQ] ++ v ++ [NL]).
        rewrite !forallb_app, !andb_true_iff.
        repeat split; auto using one_line_no_CR. }
    rewrite L. unfold load_lines. cbn [fold_left].
    rewrite load_line_parse, parse_line_empty_key. reflexivity.
  - intros Hi Hk Hg Hv. split; [now apply (add_var_empty_key w k (Line v' :: r))|].
    rewrite <- Hk in Hg.
    destruct (edit_var_overwrite w k v' cur r Hq Hi Hg Hv) as (H1 & H2 & _).
    split; [exact H1|]. rewrite H2, Hk. apply dict_get_set.
Qed.

Lemma empty_key_comes_from_file_witness :
  env_vars (snd (load_env_vars
                   (start (lit "f") (Some (EQ :: lit " secret " ++ [NL])) [])))
  = [([], lit "secret")].
Proof.
  pose proof (empty_key_comes_from_file
                (start (lit "f") (Some (EQ :: lit " secret " ++ [NL])) [])
                (lit " secret ") [] [] [] [] eq_refl) as (H & _).
  rewrite H; reflexivity.
Defined.

